(** * LEDA parameterized value slots ([LEDA/internal/param_types.h])

    A shallow embedding of the slot mechanism of LEDA's parameterized data
    types: a value of an arbitrary type [T] is kept in one data field of type
    [GenPtr] (a [void*]).  Small types live in the bytes of the field itself,
    big types in a heap object the field points to. *)

From Stdlib Require Import ZArith Lia Bool.
From Stdlib.Strings Require Import String Byte.
From stdpp Require Import base option list gmap.

Local Open Scope Z_scope.

(** ** Bytes and object representations *)

Module Bytes.

Definition byte_of_Z (z : Z) : byte :=
  match Byte.of_N (Z.to_N (z mod 256)) with
  | Some b => b
  | None => x00
  end.

Definition Z_of_byte (b : byte) : Z := Z.of_N (Byte.to_N b).

(** Little-endian image of [z] in [n] bytes (the value wraps modulo 256^n). *)
Fixpoint le_bytes (n : nat) (z : Z) : list byte :=
  match n with
  | O => []
  | S n' => byte_of_Z z :: le_bytes n' (z / 256)
  end.

Fixpoint le_value (bs : list byte) : Z :=
  match bs with
  | [] => 0
  | b :: bs' => Z_of_byte b + 256 * le_value bs'
  end.

Definition zeros (n : nat) : list byte := replicate n x00.

End Bytes.

Import Bytes.

(** ** The build's data model

    [sizeof(GenPtr)], [sizeof(long)] and the macro [WORD_LENGTH_32] are fixed
    by the platform the header is compiled for. *)

Inductive data_model := ILP32 | LP64 | LLP64.

(** Modelled from the spec: the platform word-size macro [WORD_LENGTH_32] is
    set by the build configuration (it is not defined in this header); it is
    defined exactly on the 32-bit build, where [sizeof(double) > sizeof(GenPtr)]. *)
Definition WORD_LENGTH_32 (dm : data_model) : bool :=
  match dm with ILP32 => true | _ => false end.

Definition sizeof_GenPtr (dm : data_model) : nat :=
  match dm with ILP32 => 4%nat | _ => 8%nat end.

Definition sizeof_long (dm : data_model) : nat :=
  match dm with LP64 => 8%nat | _ => 4%nat end.

(** A [GenPtr] variable, seen as the bytes it occupies. *)
Abbreviation GenPtr := (list byte) (only parsing).

Definition null_GenPtr (dm : data_model) : GenPtr := zeros (sizeof_GenPtr dm).

Definition ptr_bytes (dm : data_model) (a : Z) : GenPtr := le_bytes (sizeof_GenPtr dm) a.
Definition ptr_value (p : GenPtr) : Z := le_value p.

(** ** Built-in scalar types

    An integer scalar is its numeric value; a [float] or [double] is its
    IEEE-754 bit pattern. *)

Inductive scalar :=
  | t_char | t_short | t_int | t_long
  | t_uchar | t_ushort | t_uint | t_ulong
  | t_float | t_double.

Definition scalar_size (dm : data_model) (k : scalar) : nat :=
  match k with
  | t_char | t_uchar => 1%nat
  | t_short | t_ushort => 2%nat
  | t_int | t_uint | t_float => 4%nat
  | t_long | t_ulong => sizeof_long dm
  | t_double => 8%nat
  end.

Definition scalar_signed (k : scalar) : bool :=
  match k with
  | t_char | t_short | t_int | t_long => true
  | _ => false
  end.

Definition scalar_bits (dm : data_model) (k : scalar) : Z :=
  8 * Z.of_nat (scalar_size dm k).

Definition scalar_valid (dm : data_model) (k : scalar) (v : Z) : bool :=
  if scalar_signed k
  then (- 2 ^ (scalar_bits dm k - 1) <=? v) && (v <? 2 ^ (scalar_bits dm k - 1))
  else (0 <=? v) && (v <? 2 ^ scalar_bits dm k).

(** Reading a [w]-bit pattern [u] as a signed or unsigned number. *)
Definition of_pattern (signed : bool) (w : Z) (u : Z) : Z :=
  if signed && (2 ^ (w - 1) <=? u) then u - 2 ^ w else u.

Definition scalar_bytes (dm : data_model) (k : scalar) (v : Z) : list byte :=
  le_bytes (scalar_size dm k) v.

Definition scalar_value (dm : data_model) (k : scalar) (bs : list byte) : Z :=
  of_pattern (scalar_signed k) (scalar_bits dm k)
             (le_value (take (scalar_size dm k) bs)).

(** Conversion of an integer to an IEEE-754 format with [mbits] fraction bits
    and [ebits] exponent bits, rounding to nearest even. *)
Definition ieee_of_Z (mbits ebits : Z) (n : Z) : Z :=
  if n =? 0 then 0 else
  let s := if n <? 0 then 1 else 0 in
  let m := Z.abs n in
  let e := Z.log2 m in
  let bias := 2 ^ (ebits - 1) - 1 in
  let '(sig, e') :=
    if e <=? mbits then (m * 2 ^ (mbits - e), e)
    else
      let sh := e - mbits in
      let q := m / 2 ^ sh in
      let r := m mod 2 ^ sh in
      let half := 2 ^ (sh - 1) in
      let q' := if (half <? r) || ((r =? half) && Z.odd q) then q + 1 else q in
      if q' =? 2 ^ (mbits + 1) then (2 ^ mbits, e + 1) else (q', e) in
  s * 2 ^ (mbits + ebits) + (e' + bias) * 2 ^ mbits + (sig - 2 ^ mbits).

(** The conversion performed by [x = n] for an [int] [n]. *)
Definition scalar_of_int (dm : data_model) (k : scalar) (n : Z) : Z :=
  match k with
  | t_float => ieee_of_Z 23 8 n
  | t_double => ieee_of_Z 52 11 n
  | _ => of_pattern (scalar_signed k) (scalar_bits dm k) (n mod 2 ^ scalar_bits dm k)
  end.

(** ** Class types and the type universe

    What the templates need of an arbitrary [T]: its size, its object
    representation, and its constructors. *)

Record class_type := {
  obj : Type;
  obj_size : nat;
  obj_bytes : obj -> list byte;
  obj_value : list byte -> obj;
  obj_valid : obj -> bool;
  obj_ctor : obj;              (* T() : value-initialisation *)
  obj_new : option obj;        (* new T : default-initialisation; None leaves
                                  the object indeterminate *)
  obj_copy : obj -> obj        (* T(x) *)
}.

Inductive cpp_type :=
  | Scalar (k : scalar)
  | Class (c : class_type).

Definition carrier (T : cpp_type) : Type :=
  match T with
  | Scalar _ => Z
  | Class c => obj c
  end.

Definition sizeof (dm : data_model) (T : cpp_type) : nat :=
  match T with
  | Scalar k => scalar_size dm k
  | Class c => obj_size c
  end.

Definition to_bytes (dm : data_model) (T : cpp_type) : carrier T -> list byte :=
  match T with
  | Scalar k => scalar_bytes dm k
  | Class c => obj_bytes c
  end.

Definition of_bytes (dm : data_model) (T : cpp_type) : list byte -> carrier T :=
  match T with
  | Scalar k => scalar_value dm k
  | Class c => obj_value c
  end.

Definition valid (dm : data_model) (T : cpp_type) : carrier T -> bool :=
  match T with
  | Scalar k => scalar_valid dm k
  | Class c => obj_valid c
  end.

(** [T()]: a scalar is zero-initialised. *)
Definition value_init (dm : data_model) (T : cpp_type) : carrier T :=
  match T with
  | Scalar k => scalar_value dm k (zeros (scalar_size dm k))
  | Class c => obj_ctor c
  end.

(** [new T] without an initialiser: a scalar is left indeterminate. *)
Definition default_init (T : cpp_type) : option (carrier T) :=
  match T with
  | Scalar _ => None
  | Class c => obj_new c
  end.

(** [T(x)] *)
Definition copy_init (T : cpp_type) : carrier T -> carrier T :=
  match T with
  | Scalar _ => fun x => x
  | Class c => obj_copy c
  end.

(** A class type with value semantics: the representation has the declared
    size and determines the value, and a copy equals its original. *)
Record class_ok (c : class_type) : Prop := {
  bytes_size : forall v, obj_valid c v = true -> length (obj_bytes c v) = obj_size c;
  bytes_value : forall v, obj_valid c v = true -> obj_value c (obj_bytes c v) = v;
  copy_equal : forall v, obj_valid c v = true -> obj_copy c v = v;
  ctor_valid : obj_valid c (obj_ctor c) = true;
  new_valid : forall v, obj_new c = Some v -> obj_valid c v = true
}.

Definition type_ok (T : cpp_type) : Prop :=
  match T with
  | Scalar _ => True
  | Class c => class_ok c
  end.

(** ** Outcomes of a call

    A call either returns, or ends the program: through the library's error
    handler, through a failed allocation, or by leaving defined behaviour. *)

Inductive failure :=
  | fatal_error (err_no : Z) (msg : string)
  | bad_alloc
  | undefined_behaviour.

Inductive outcome (S A : Type) :=
  | Ret (a : A) (s : S)
  | Fail (f : failure) (s : S).
Arguments Ret {S A} a s.
Arguments Fail {S A} f s.

Definition prog (S A : Type) : Type := S -> outcome S A.

#[export] Instance prog_ret {S} : MRet (prog S) := fun A a s => Ret a s.

#[export] Instance prog_bind {S} : MBind (prog S) := fun A B k c s =>
  match c s with
  | Ret a s' => k a s'
  | Fail f s' => Fail f s'
  end.

Definition fail {S A} (f : failure) : prog S A := fun s => Fail f s.

(** Modelled from the spec: [error_handler] is declared outside this header;
    it is the single fatal error-reporting hook: it reports the message and
    does not return to its caller. *)
Definition error_handler {S} (err_no : Z) (msg : string) : prog S unit :=
  fail (fatal_error err_no msg).

(** ** The heap

    Live heap objects by address, the next free address, and the counters of
    an instrumented allocator. *)

Inductive contents :=
  | Indeterminate
  | Init (bs : list byte).

Record block := { blk_size : nat; blk_data : contents }.

Record machine := {
  heap : gmap Z block;
  brk : Z;
  n_alloc : nat;
  n_dealloc : nat;
  n_ctor : nat;
  n_dtor : nat
}.

Definition empty_machine : machine :=
  {| heap := ∅; brk := 16; n_alloc := 0; n_dealloc := 0; n_ctor := 0; n_dtor := 0 |}.

(** State updates. *)
Definition set_heap (h : gmap Z block) (m : machine) : machine :=
  {| heap := h; brk := brk m; n_alloc := n_alloc m; n_dealloc := n_dealloc m;
     n_ctor := n_ctor m; n_dtor := n_dtor m |}.

Definition set_brk (b : Z) (m : machine) : machine :=
  {| heap := heap m; brk := b; n_alloc := n_alloc m; n_dealloc := n_dealloc m;
     n_ctor := n_ctor m; n_dtor := n_dtor m |}.

Definition count_alloc (m : machine) : machine :=
  {| heap := heap m; brk := brk m; n_alloc := S (n_alloc m); n_dealloc := n_dealloc m;
     n_ctor := n_ctor m; n_dtor := n_dtor m |}.

Definition count_dealloc (m : machine) : machine :=
  {| heap := heap m; brk := brk m; n_alloc := n_alloc m; n_dealloc := S (n_dealloc m);
     n_ctor := n_ctor m; n_dtor := n_dtor m |}.

Definition count_ctor (m : machine) : machine :=
  {| heap := heap m; brk := brk m; n_alloc := n_alloc m; n_dealloc := n_dealloc m;
     n_ctor := S (n_ctor m); n_dtor := n_dtor m |}.

Definition count_dtor (m : machine) : machine :=
  {| heap := heap m; brk := brk m; n_alloc := n_alloc m; n_dealloc := n_dealloc m;
     n_ctor := n_ctor m; n_dtor := S (n_dtor m) |}.

Definition has_room (dm : data_model) (n : nat) (m : machine) : bool :=
  (0 <? brk m) && (brk m + Z.of_nat n <=? 256 ^ Z.of_nat (sizeof_GenPtr dm)).

(** Modelled from the spec: the allocator is an opaque service offering
    [allocate(n)] and [deallocate(p,n)].  Here it hands out increasing
    addresses of the build's address space and fails when none is left. *)
Definition allocated (n : nat) (d : contents) (m : machine) : machine :=
  count_alloc
    (set_brk (brk m + Z.of_nat (Nat.max n 1))
       (set_heap (<[brk m := {| blk_size := n; blk_data := d |}]> (heap m)) m)).

Definition allocate (dm : data_model) (n : nat) : prog machine Z := fun m =>
  if has_room dm n m then Ret (brk m) (allocated n Indeterminate m)
  else Fail bad_alloc m.

Definition deallocate (a : Z) (n : nat) : prog machine unit := fun m =>
  match heap m !! a with
  | Some b =>
      if Nat.eqb (blk_size b) n
      then Ret tt (count_dealloc (set_heap (delete a (heap m)) m))
      else Fail undefined_behaviour m
  | None => Fail undefined_behaviour m
  end.

(** Writing an object representation into a live heap object. *)
Definition store (a : Z) (bs : list byte) : prog machine unit := fun m =>
  match heap m !! a with
  | Some b =>
      if Nat.eqb (blk_size b) (length bs)
      then Ret tt (set_heap (<[a := {| blk_size := blk_size b; blk_data := Init bs |}]> (heap m)) m)
      else Fail undefined_behaviour m
  | None => Fail undefined_behaviour m
  end.

Definition load (a : Z) (n : nat) (m : machine) : option (list byte) :=
  match heap m !! a with
  | Some {| blk_size := k; blk_data := Init bs |} =>
      if Nat.eqb k n then Some bs else None
  | _ => None
  end.

(** A constructor or destructor has run. *)
Definition constructed : prog machine unit := fun m => Ret tt (count_ctor m).

Definition destroyed : prog machine unit := fun m => Ret tt (count_dtor m).

(** [new (p) T(v)]: the object is built in the leading bytes of the storage. *)
Definition placement_new (p : list byte) (bs : list byte) : prog machine (list byte) :=
  constructed ;; mret (bs ++ drop (length bs) p).

(** [new T(v)] and [new T]. *)
Definition operator_new (dm : data_model) (T : cpp_type) (init : option (carrier T))
  : prog machine Z :=
  a ← allocate dm (sizeof dm T);
  match init with
  | Some v => store a (to_bytes dm T v)
  | None => mret tt
  end ;;
  constructed ;;
  mret a.

(** [delete q] for a [T* q]. *)
Definition operator_delete (dm : data_model) (T : cpp_type) (a : Z) : prog machine unit :=
  destroyed ;; deallocate a (sizeof dm T).

(** ** leda_create, leda_copy, leda_cast, leda_clear, leda_access

    The function templates, the overloads for [double] of the 32-bit build,
    and the overload resolution between them. *)

(** What a [T&] obtained from a slot refers to: the slot's own bytes, or the
    heap object at an address. *)
Inductive ref :=
  | in_slot
  | at_addr (a : Z).

Definition in_place_create (dm : data_model) (T : cpp_type) (p : GenPtr)
  : prog machine GenPtr :=
  placement_new p (to_bytes dm T (value_init dm T)).

Definition leda_create_template (dm : data_model) (T : cpp_type) : prog machine GenPtr :=
  let p := null_GenPtr dm in
  if (sizeof dm T <=? sizeof_GenPtr dm)%nat then
    in_place_create dm T p
  else
    a ← operator_new dm T (default_init T);
    mret (ptr_bytes dm a).

Definition in_place_copy (dm : data_model) (T : cpp_type) (p : GenPtr) (x : carrier T)
  : prog machine GenPtr :=
  placement_new p (to_bytes dm T (copy_init T x)).

Definition leda_copy_template (dm : data_model) (T : cpp_type) (x : carrier T)
  : prog machine GenPtr :=
  let p := null_GenPtr dm in
  if (sizeof dm T <=? sizeof_GenPtr dm)%nat then
    in_place_copy dm T p x
  else
    a ← operator_new dm T (Some (copy_init T x));
    mret (ptr_bytes dm a).

Definition leda_clear_template (dm : data_model) (T : cpp_type) (x : ref)
  : prog machine unit :=
  if (sizeof dm T <=? sizeof_GenPtr dm)%nat then
    destroyed
  else
    match x with
    | at_addr a => operator_delete dm T a
    | in_slot => fail undefined_behaviour
    end.

Definition leda_access_template (dm : data_model) (T : cpp_type) (p : GenPtr) : ref :=
  if (sizeof dm T <=? sizeof_GenPtr dm)%nat then in_slot
  else at_addr (ptr_value p).

Definition leda_const_access_template (dm : data_model) (T : cpp_type) (p : GenPtr) : ref :=
  if (sizeof dm T <=? sizeof_GenPtr dm)%nat then in_slot
  else at_addr (ptr_value p).

(** The overloads for [double], compiled when [WORD_LENGTH_32] is defined;
    they use [std_memory.allocate_bytes] and [deallocate_bytes]. *)

Definition leda_copy_double (dm : data_model) (x : Z) : prog machine GenPtr :=
  p ← allocate dm (scalar_size dm t_double);
  store p (scalar_bytes dm t_double x) ;;
  mret (ptr_bytes dm p).

Definition leda_create_double (dm : data_model) : prog machine GenPtr :=
  p ← allocate dm (scalar_size dm t_double);
  store p (scalar_bytes dm t_double (scalar_of_int dm t_double 0)) ;;
  mret (ptr_bytes dm p).

Definition leda_clear_double (dm : data_model) (x : ref) : prog machine unit :=
  match x with
  | at_addr a => deallocate a (scalar_size dm t_double)
  | in_slot => fail undefined_behaviour
  end.

Definition leda_cast_double (dm : data_model) (addr_x : Z) (x : Z) : prog machine GenPtr :=
  mret (ptr_bytes dm addr_x).

Definition leda_access_double (p : GenPtr) : ref := at_addr (ptr_value p).

Definition leda_const_access_double (p : GenPtr) : ref := at_addr (ptr_value p).

(** Overload resolution: a call with a [double] picks the non-template
    overload when the build has it. *)

Definition leda_create (dm : data_model) (T : cpp_type) : prog machine GenPtr :=
  match T with
  | Scalar t_double =>
      if WORD_LENGTH_32 dm then leda_create_double dm
      else leda_create_template dm (Scalar t_double)
  | _ => leda_create_template dm T
  end.

Definition leda_copy (dm : data_model) (T : cpp_type) : carrier T -> prog machine GenPtr :=
  match T return carrier T -> prog machine GenPtr with
  | Scalar t_double =>
      if WORD_LENGTH_32 dm then leda_copy_double dm
      else leda_copy_template dm (Scalar t_double)
  | T' => leda_copy_template dm T'
  end.

Definition leda_clear (dm : data_model) (T : cpp_type) (x : ref) : prog machine unit :=
  match T with
  | Scalar t_double =>
      if WORD_LENGTH_32 dm then leda_clear_double dm x
      else leda_clear_template dm (Scalar t_double) x
  | _ => leda_clear_template dm T x
  end.

Definition leda_access (dm : data_model) (T : cpp_type) (p : GenPtr) : ref :=
  match T with
  | Scalar t_double =>
      if WORD_LENGTH_32 dm then leda_access_double p
      else leda_access_template dm (Scalar t_double) p
  | _ => leda_access_template dm T p
  end.

Definition leda_const_access (dm : data_model) (T : cpp_type) (p : GenPtr) : ref :=
  match T with
  | Scalar t_double =>
      if WORD_LENGTH_32 dm then leda_const_access_double p
      else leda_const_access_template dm (Scalar t_double) p
  | _ => leda_const_access_template dm T p
  end.

(** [leda_cast(x)] for an object [x] that lives at address [addr_x]. *)
Definition leda_cast_template (dm : data_model) (T : cpp_type) (addr_x : Z) (x : carrier T)
  : prog machine GenPtr :=
  if (sizeof_GenPtr dm <? sizeof dm T)%nat then mret (ptr_bytes dm addr_x)
  else if (sizeof dm T =? sizeof_GenPtr dm)%nat then mret (to_bytes dm T x)
  else if (sizeof dm T <? sizeof_GenPtr dm)%nat then leda_copy dm T x
  else fail undefined_behaviour.

Definition leda_cast (dm : data_model) (T : cpp_type) : Z -> carrier T -> prog machine GenPtr :=
  match T return Z -> carrier T -> prog machine GenPtr with
  | Scalar t_double =>
      if WORD_LENGTH_32 dm then leda_cast_double dm
      else leda_cast_template dm (Scalar t_double)
  | T' => leda_cast_template dm T'
  end.

(** The value a reference denotes, for a slot [p] in machine state [m]. *)
Definition read (dm : data_model) (T : cpp_type) (m : machine) (p : GenPtr) (r : ref)
  : option (carrier T) :=
  match r with
  | in_slot =>
      if (sizeof dm T <=? length p)%nat
      then Some (of_bytes dm T (take (sizeof dm T) p))
      else None
  | at_addr a => of_bytes dm T <$> load a (sizeof dm T) m
  end.

(** The macros used by the data type templates. *)
Definition LEDA_ACCESS (dm : data_model) (T : cpp_type) (m : machine) (p : GenPtr)
  : option (carrier T) :=
  read dm T m p (leda_access dm T p).

Definition LEDA_CONST_ACCESS (dm : data_model) (T : cpp_type) (m : machine) (p : GenPtr)
  : option (carrier T) :=
  read dm T m p (leda_const_access dm T p).

Definition LEDA_CREATE (dm : data_model) (T : cpp_type) : prog machine GenPtr :=
  leda_create dm T.

Definition LEDA_CLEAR (dm : data_model) (T : cpp_type) (p : GenPtr) : prog machine unit :=
  leda_clear dm T (leda_access dm T p).

(** ** The default input operator for pointers *)

Section StreamInput.

(** The state of an [istream]; the operator takes it by reference. *)
Variable istream : Type.

(** [operator>>(istream& in, GenPtr)]: the slot is passed by value. *)
Definition operator_shr (p : GenPtr) : prog istream unit :=
  error_handler 1 "stream input operator (>>) not defined" ;;
  mret tt.

(** The statement [in >> x] for a [GenPtr] variable [x] of the caller; the
    state is the stream together with [x]. *)
Definition read_GenPtr : prog (istream * GenPtr) unit := fun '(inp, x) =>
  match operator_shr x inp with
  | Ret a inp' => Ret a (inp', x)
  | Fail f inp' => Fail f (inp', x)
  end.

End StreamInput.

(** ** Linear orders: compare and the smaller predicates *)

(** A type with [operator<]. *)
Class Less (T : Type) := less : T -> T -> bool.

#[export] Instance Z_less : Less Z := Z.ltb.

Definition compare {T} `{Less T} (x y : T) : Z :=
  if less x y then -1
  else if less y x then 1
  else 0.

(** A pointer to a function taking two [const T&] and returning [int];
    [None] is the null pointer. *)
Definition cmp_func (T : Type) : Type := option (T -> T -> Z).

Definition call_cmp_func {S T} (c : cmp_func T) (x y : T) : prog S Z :=
  match c with
  | Some f => mret (f x y)
  | None => fail undefined_behaviour
  end.

(** A comparison object: a class [CMP] with [int operator()(x,y)]. *)
Class Comparator (S CMP T : Type) := cmp_call : CMP -> T -> T -> prog S Z.

Record smaller_default (T : Type) := Build_smaller_default { }.
Arguments Build_smaller_default {T}.

Definition smaller_default_call {T} `{Less T} (self : smaller_default T) (x y : T) : bool :=
  compare x y <? 0.

Record smaller_cmp_func (T : Type) := Build_smaller_cmp_func {
  scf_cmp : cmp_func T
}.
Arguments Build_smaller_cmp_func {T} _.
Arguments scf_cmp {T} _.

Definition smaller_cmp_func_call {S T} (self : smaller_cmp_func T) (x y : T) : prog S bool :=
  r ← call_cmp_func (scf_cmp self) x y;
  mret (r <? 0).

Record smaller_cmp_obj (T CMP : Type) := Build_smaller_cmp_obj {
  sco_cmp : CMP
}.
Arguments Build_smaller_cmp_obj {T CMP} _.
Arguments sco_cmp {T CMP} _.

Definition smaller_cmp_obj_call {S T CMP} `{Comparator S CMP T}
    (self : smaller_cmp_obj T CMP) (x y : T) : prog S bool :=
  r ← cmp_call (sco_cmp self) x y;
  mret (r <? 0).

(** ** leda_cmp_base *)

Record leda_cmp_base (T : Type) := Build_leda_cmp_base {
  lcb_cmp : cmp_func T;
  dynamic : bool
}.
Arguments Build_leda_cmp_base {T} _ _.
Arguments lcb_cmp {T} _.
Arguments dynamic {T} _.

(** The constructor [leda_cmp_base(c = 0, dyn = false)]. *)
Definition leda_cmp_base_ctor {T} (c : cmp_func T) (dyn : bool) : leda_cmp_base T :=
  {| lcb_cmp := c; dynamic := dyn |}.

Definition leda_cmp_base_default {T} : leda_cmp_base T :=
  leda_cmp_base_ctor None false.

Definition is_dynamic {T} (self : leda_cmp_base T) : bool := dynamic self.

Definition leda_cmp_base_call {S T} (self : leda_cmp_base T) (x y : T) : prog S Z :=
  (if lcb_cmp self is None
   then error_handler 1 "leda_cmp_base: compare undefined"
   else mret tt) ;;
  call_cmp_func (lcb_cmp self) x y.

#[export] Instance leda_cmp_base_comparator {S T} : Comparator S (leda_cmp_base T) T :=
  leda_cmp_base_call.

(** ** Default values *)

(** The template: [x = T()]. *)
Definition leda_init_default_template (dm : data_model) (T : cpp_type) (x : carrier T)
  : carrier T :=
  value_init dm T.

(** The overloads: [x = 0]. *)
Definition leda_init_default_char (dm : data_model) (x : Z) : Z := scalar_of_int dm t_char 0.
Definition leda_init_default_short (dm : data_model) (x : Z) : Z := scalar_of_int dm t_short 0.
Definition leda_init_default_int (dm : data_model) (x : Z) : Z := scalar_of_int dm t_int 0.
Definition leda_init_default_long (dm : data_model) (x : Z) : Z := scalar_of_int dm t_long 0.
Definition leda_init_default_uchar (dm : data_model) (x : Z) : Z := scalar_of_int dm t_uchar 0.
Definition leda_init_default_ushort (dm : data_model) (x : Z) : Z := scalar_of_int dm t_ushort 0.
Definition leda_init_default_uint (dm : data_model) (x : Z) : Z := scalar_of_int dm t_uint 0.
Definition leda_init_default_ulong (dm : data_model) (x : Z) : Z := scalar_of_int dm t_ulong 0.
Definition leda_init_default_float (dm : data_model) (x : Z) : Z := scalar_of_int dm t_float 0.
Definition leda_init_default_double (dm : data_model) (x : Z) : Z := scalar_of_int dm t_double 0.

(** Overload resolution for [leda_init_default(x)]. *)
Definition leda_init_default (dm : data_model) (T : cpp_type) : carrier T -> carrier T :=
  match T return carrier T -> carrier T with
  | Scalar t_char => leda_init_default_char dm
  | Scalar t_short => leda_init_default_short dm
  | Scalar t_int => leda_init_default_int dm
  | Scalar t_long => leda_init_default_long dm
  | Scalar t_uchar => leda_init_default_uchar dm
  | Scalar t_ushort => leda_init_default_ushort dm
  | Scalar t_uint => leda_init_default_uint dm
  | Scalar t_ulong => leda_init_default_ulong dm
  | Scalar t_float => leda_init_default_float dm
  | Scalar t_double => leda_init_default_double dm
  | Class c => leda_init_default_template dm (Class c)
  end.

(** ** Observations on a call *)

(** The call left the heap and the allocator's counters as they were. *)
Definition heap_untouched (m m' : machine) : Prop :=
  heap m' = heap m /\ brk m' = brk m /\
  n_alloc m' = n_alloc m /\ n_dealloc m' = n_dealloc m.

(** The call returned without allocating or deallocating. *)
Definition heap_free {A} (c : prog machine A) (m : machine) : bool :=
  match c m with
  | Ret _ m' => (n_alloc m' =? n_alloc m)%nat && (n_dealloc m' =? n_dealloc m)%nat
  | Fail _ _ => false
  end.

Definition is_in_slot (r : ref) : bool :=
  match r with
  | in_slot => true
  | at_addr _ => false
  end.

(** The call returned after at least one allocation. *)
Definition allocates {A} (c : prog machine A) (m : machine) : Prop :=
  exists a m', c m = Ret a m' /\ (n_alloc m < n_alloc m')%nat.

(** ** Strict weak orders *)

Record strict_weak_order {T} (lt : T -> T -> bool) : Prop := {
  swo_irrefl : forall x, lt x x = false;
  swo_trans : forall x y z, lt x y = true -> lt y z = true -> lt x z = true;
  swo_incomparable :
    forall x y z,
      lt x y = false -> lt y x = false ->
      lt y z = false -> lt z y = false ->
      lt x z = false /\ lt z x = false
}.

(** A sample order that is not total: integers compared by their tens. *)
Definition less_by_tens : Less Z := fun a b => a / 10 <? b / 10.

(** ** A sample class type

    A trivially copyable struct of [n] bytes without a user-provided
    constructor: [T()] zero-fills it, [new T] leaves it indeterminate. *)
Definition pod_struct (n : nat) : class_type :=
  {| obj := list byte;
     obj_size := n;
     obj_bytes := fun bs => bs;
     obj_value := fun bs => bs;
     obj_valid := fun bs => Nat.eqb (length bs) n;
     obj_ctor := zeros n;
     obj_new := None;
     obj_copy := fun bs => bs |}.

(** ** The remaining macros of the data type templates *)

(** [LEDA_COPY(T,x)], that is [x = leda_copy(LEDA_CONST_ACCESS(T,x))]: the
    slot is replaced by a slot holding a copy of the value it held. *)
Definition LEDA_COPY (dm : data_model) (T : cpp_type) (x : GenPtr) : prog machine GenPtr :=
  fun m =>
    match LEDA_CONST_ACCESS dm T m x with
    | Some v => leda_copy dm T v m
    | None => Fail undefined_behaviour m
    end.

(** [LEDA_CALL1(f,T,x)] and [LEDA_CALL2(f,T,x,y)]: [f] applied to the values
    the slots hold. *)
Definition LEDA_CALL1 {B} (dm : data_model) (T : cpp_type) (f : carrier T -> B)
    (m : machine) (x : GenPtr) : option B :=
  f <$> LEDA_CONST_ACCESS dm T m x.

Definition LEDA_CALL2 {B} (dm : data_model) (T : cpp_type) (f : carrier T -> carrier T -> B)
    (m : machine) (x y : GenPtr) : option B :=
  vx ← LEDA_CONST_ACCESS dm T m x;
  vy ← LEDA_CONST_ACCESS dm T m y;
  Some (f vx vy).

Definition LEDA_COMPARE (dm : data_model) (T : cpp_type) `{Less (carrier T)}
    (m : machine) (x y : GenPtr) : option Z :=
  LEDA_CALL2 dm T compare m x y.

(** ** Type ids *)

Definition UNKNOWN_TYPE_ID : Z := 0.
Definition CHAR_TYPE_ID : Z := 1.
Definition SHORT_TYPE_ID : Z := 2.
Definition INT_TYPE_ID : Z := 3.
Definition LONG_TYPE_ID : Z := 4.
Definition FLOAT_TYPE_ID : Z := 5.
Definition DOUBLE_TYPE_ID : Z := 6.
Definition PTR_TYPE_ID : Z := 7.
Definition INTEGER_TYPE_ID : Z := 8.
Definition RATIONAL_TYPE_ID : Z := 9.
Definition REAL_TYPE_ID : Z := 10.

(** The template answers [UNKNOWN_TYPE_ID]; six overloads answer for
    [char], [short], [int], [long], [float] and [double]. *)
Definition leda_type_id (dm : data_model) (T : cpp_type) : Z :=
  match T with
  | Scalar t_char => CHAR_TYPE_ID
  | Scalar t_short => SHORT_TYPE_ID
  | Scalar t_int => INT_TYPE_ID
  | Scalar t_long =>
      if (scalar_size dm t_long =? scalar_size dm t_int)%nat
      then INT_TYPE_ID else LONG_TYPE_ID
  | Scalar t_float => FLOAT_TYPE_ID
  | Scalar t_double => DOUBLE_TYPE_ID
  | _ => UNKNOWN_TYPE_ID
  end.

(** ** Id numbers

    The 32-bit build returns [unsigned long], the other builds
    [unsigned long long]. *)

Definition ID_Number_size (dm : data_model) : nat :=
  if WORD_LENGTH_32 dm then sizeof_long dm else 8%nat.

Definition ID_Number_bits (dm : data_model) : Z := 8 * Z.of_nat (ID_Number_size dm).

(** [ID_Number(const void* x)]: the pointer is written to a union and the
    unsigned member read back from the same bytes. *)
Definition ID_Number_ptr (dm : data_model) (x : GenPtr) : Z :=
  le_value (take (ID_Number_size dm) x).

(** The casts [(unsigned long)x] and [(unsigned long long)x]. *)
Definition ID_Number_char (dm : data_model) (x : Z) : Z := x mod 2 ^ ID_Number_bits dm.
Definition ID_Number_short (dm : data_model) (x : Z) : Z := x mod 2 ^ ID_Number_bits dm.
Definition ID_Number_int (dm : data_model) (x : Z) : Z := x mod 2 ^ ID_Number_bits dm.
Definition ID_Number_long (dm : data_model) (x : Z) : Z := x mod 2 ^ ID_Number_bits dm.
Definition ID_Number_uint (dm : data_model) (x : Z) : Z := x mod 2 ^ ID_Number_bits dm.
Definition ID_Number_ulong (dm : data_model) (x : Z) : Z := x mod 2 ^ ID_Number_bits dm.

(** The overload declared for a scalar parameter type, if there is one. *)
Definition ID_Number (dm : data_model) (k : scalar) : option (Z -> Z) :=
  match k with
  | t_char => Some (ID_Number_char dm)
  | t_short => Some (ID_Number_short dm)
  | t_int => Some (ID_Number_int dm)
  | t_long => Some (ID_Number_long dm)
  | t_uint => Some (ID_Number_uint dm)
  | t_ulong => Some (ID_Number_ulong dm)
  | t_uchar | t_ushort | t_float | t_double => None
  end.

(** ** Hash functions *)

(** [int(x)] for an integer [x]. *)
Definition to_int (dm : data_model) (x : Z) : Z :=
  of_pattern true (scalar_bits dm t_int) (x mod 2 ^ scalar_bits dm t_int).

(** The integer part of the IEEE-754 number with bit pattern [bits];
    [None] for an infinity or a NaN. *)
Definition ieee_trunc (mbits ebits : Z) (bits : Z) : option Z :=
  let frac := bits mod 2 ^ mbits in
  let e := (bits / 2 ^ mbits) mod 2 ^ ebits in
  let s := (bits / 2 ^ (mbits + ebits)) mod 2 in
  let bias := 2 ^ (ebits - 1) - 1 in
  if e =? 2 ^ ebits - 1 then None
  else
    let mag :=
      if e =? 0 then 0
      else
        let sig := 2 ^ mbits + frac in
        let sh := e - bias - mbits in
        if 0 <=? sh then sig * 2 ^ sh else sig / 2 ^ (- sh) in
    Some (if s =? 1 then - mag else mag).

(** [int(x)] for a floating [x]: defined when the integer part is an [int]. *)
Definition float_to_int (dm : data_model) (mbits ebits : Z) (x : Z) : option Z :=
  n ← ieee_trunc mbits ebits x;
  if scalar_valid dm t_int n then Some n else None.

(** [Hash(void* x)]: the pointer is written to a union and the [int] member
    read back from its leading bytes. *)
Definition Hash_ptr (dm : data_model) (x : GenPtr) : Z := scalar_value dm t_int x.

Definition Hash_schar (dm : data_model) (x : Z) : Z := to_int dm x.
Definition Hash_sshort (dm : data_model) (x : Z) : Z := to_int dm x.
Definition Hash_sint (dm : data_model) (x : Z) : Z := to_int dm x.
Definition Hash_slong (dm : data_model) (x : Z) : Z := to_int dm x.
Definition Hash_uchar (dm : data_model) (x : Z) : Z := to_int dm x.
Definition Hash_ushort (dm : data_model) (x : Z) : Z := to_int dm x.
Definition Hash_uint (dm : data_model) (x : Z) : Z := to_int dm x.
Definition Hash_ulong (dm : data_model) (x : Z) : Z := to_int dm x.
Definition Hash_float (dm : data_model) (x : Z) : option Z := float_to_int dm 23 8 x.
Definition Hash_double (dm : data_model) (x : Z) : option Z := float_to_int dm 52 11 x.

(** The overload for each scalar type ([t_char] standing for [signed char]);
    [None] where the conversion to [int] is undefined. *)
Definition Hash (dm : data_model) (k : scalar) (x : Z) : option Z :=
  match k with
  | t_char => Some (Hash_schar dm x)
  | t_short => Some (Hash_sshort dm x)
  | t_int => Some (Hash_sint dm x)
  | t_long => Some (Hash_slong dm x)
  | t_uchar => Some (Hash_uchar dm x)
  | t_ushort => Some (Hash_ushort dm x)
  | t_uint => Some (Hash_uint dm x)
  | t_ulong => Some (Hash_ulong dm x)
  | t_float => Hash_float dm x
  | t_double => Hash_double dm x
  end.

(** ** Well-formed machines *)

(** Live heap objects lie at non-null addresses below the next free one. *)
Definition heap_below_brk (m : machine) : Prop :=
  forall a b, heap m !! a = Some b -> 0 < a < brk m.

(** The call built or destroyed as many objects through constructors and
    destructors on either side. *)
Definition same_lifetimes (m m' : machine) : Prop :=
  (n_ctor m' + n_dtor m = n_ctor m + n_dtor m')%nat.

(** Whether calls with a [T] resolve to the overloads for [double]. *)
Definition has_double_overload (dm : data_model) (T : cpp_type) : bool :=
  match T with
  | Scalar t_double => WORD_LENGTH_32 dm
  | _ => false
  end.

(** * Properties *)

(** ** Byte images *)

Lemma Z_of_byte_range b : 0 <= Z_of_byte b < 256.
Proof.
  unfold Z_of_byte. pose proof (Byte.to_N_bounded b). lia.
Qed.

Lemma Z_of_byte_of_Z z : Z_of_byte (byte_of_Z z) = z mod 256.
Proof.
  unfold Z_of_byte, byte_of_Z.
  pose proof (Z.mod_pos_bound z 256 eq_refl) as Hr.
  destruct (Byte.of_N (Z.to_N (z mod 256))) as [b|] eqn:E.
  - apply Byte.to_of_N in E. lia.
  - apply Byte.of_N_None_iff in E. lia.
Qed.

Lemma length_le_bytes n z : length (le_bytes n z) = n.
Proof. revert z. induction n as [|n IH]; intros z; simpl; [done|]. by rewrite IH. Qed.

Lemma le_value_range bs : 0 <= le_value bs < 256 ^ Z.of_nat (length bs).
Proof.
  induction bs as [|b bs IH]; simpl length; simpl le_value.
  - simpl. lia.
  - pose proof (Z_of_byte_range b).
    rewrite Nat2Z.inj_succ, Z.pow_succ_r by lia. lia.
Qed.

Lemma le_value_bytes n z : le_value (le_bytes n z) = z mod 256 ^ Z.of_nat n.
Proof.
  revert z. induction n as [|n IH]; intros z.
  - simpl. by rewrite Z.mod_1_r.
  - cbn [le_bytes le_value]. rewrite Z_of_byte_of_Z, IH.
    rewrite Nat2Z.inj_succ, Z.pow_succ_r by lia.
    rewrite Z.rem_mul_r by lia. lia.
Qed.

Lemma le_roundtrip n z :
  0 <= z < 256 ^ Z.of_nat n -> le_value (le_bytes n z) = z.
Proof. intros H. rewrite le_value_bytes. by apply Z.mod_small. Qed.

Lemma le_value_zeros n : le_value (zeros n) = 0.
Proof. induction n as [|n IH]; simpl; [done|]. unfold zeros in IH. by rewrite IH. Qed.

Lemma le_bytes_zero n : le_bytes n 0 = zeros n.
Proof.
  induction n as [|n IH]; [done|].
  cbn [le_bytes]. change (0 / 256) with 0. rewrite IH. reflexivity.
Qed.

Lemma pow_256 (n : nat) : 256 ^ Z.of_nat n = 2 ^ (8 * Z.of_nat n).
Proof. rewrite Z.pow_mul_r by lia. reflexivity. Qed.

Lemma ptr_value_bytes dm a :
  0 <= a < 256 ^ Z.of_nat (sizeof_GenPtr dm) -> ptr_value (ptr_bytes dm a) = a.
Proof. apply le_roundtrip. Qed.

Lemma length_null_GenPtr dm : length (null_GenPtr dm) = sizeof_GenPtr dm.
Proof. apply length_replicate. Qed.

(** ** Object representations of the scalar types *)

Lemma scalar_bits_pos dm k : 8 <= scalar_bits dm k.
Proof. unfold scalar_bits. destruct k, dm; simpl; lia. Qed.

Lemma of_pattern_mod (signed : bool) (w v : Z) :
  0 < w ->
  (if signed then - 2 ^ (w - 1) <= v < 2 ^ (w - 1) else 0 <= v < 2 ^ w) ->
  of_pattern signed w (v mod 2 ^ w) = v.
Proof.
  intros Hw Hv. unfold of_pattern.
  assert (E : 2 ^ w = 2 * 2 ^ (w - 1)).
  { rewrite <- Z.pow_succ_r by lia. f_equal. lia. }
  assert (0 < 2 ^ (w - 1)) by (apply Z.pow_pos_nonneg; lia).
  destruct signed; simpl; [|apply Z.mod_small; lia].
  destruct (Z_lt_le_dec v 0) as [Hneg|Hpos].
  - assert (Hm : v mod 2 ^ w = v + 2 ^ w)
      by (symmetry; apply (Z.mod_unique v (2 ^ w) (-1)); lia).
    rewrite Hm. destruct (Z.leb_spec (2 ^ (w - 1)) (v + 2 ^ w)); lia.
  - rewrite Z.mod_small by lia.
    destruct (Z.leb_spec (2 ^ (w - 1)) v); lia.
Qed.

Lemma scalar_valid_range dm k v :
  scalar_valid dm k v = true ->
  if scalar_signed k
  then - 2 ^ (scalar_bits dm k - 1) <= v < 2 ^ (scalar_bits dm k - 1)
  else 0 <= v < 2 ^ scalar_bits dm k.
Proof.
  unfold scalar_valid. destruct (scalar_signed k); intros H;
    apply andb_true_iff in H as [H1 H2]; lia.
Qed.

Lemma length_scalar_bytes dm k v : length (scalar_bytes dm k v) = scalar_size dm k.
Proof. apply length_le_bytes. Qed.

Lemma scalar_value_bytes dm k v :
  scalar_valid dm k v = true -> scalar_value dm k (scalar_bytes dm k v) = v.
Proof.
  intros Hv. unfold scalar_value, scalar_bytes.
  rewrite take_ge by (rewrite length_le_bytes; lia).
  rewrite le_value_bytes, pow_256. fold (scalar_bits dm k).
  apply of_pattern_mod.
  - pose proof (scalar_bits_pos dm k). lia.
  - by apply scalar_valid_range.
Qed.

Lemma scalar_value_zeros dm k : scalar_value dm k (zeros (scalar_size dm k)) = 0.
Proof.
  unfold scalar_value.
  rewrite take_ge by (unfold zeros; rewrite length_replicate; lia).
  rewrite le_value_zeros. unfold of_pattern.
  pose proof (scalar_bits_pos dm k).
  assert (0 < 2 ^ (scalar_bits dm k - 1)) by (apply Z.pow_pos_nonneg; lia).
  destruct (scalar_signed k); simpl; [|done].
  destruct (Z.leb_spec (2 ^ (scalar_bits dm k - 1)) 0); [lia|done].
Qed.

Lemma scalar_of_int_zero dm k : scalar_of_int dm k 0 = 0.
Proof. destruct k, dm; vm_compute; reflexivity. Qed.

(** ** Object representations in general *)

Lemma length_to_bytes dm T (v : carrier T) :
  type_ok T -> valid dm T v = true -> length (to_bytes dm T v) = sizeof dm T.
Proof.
  destruct T as [k|c]; simpl; intros Hok Hv.
  - apply length_scalar_bytes.
  - by apply (bytes_size c Hok).
Qed.

Lemma of_to_bytes dm T (v : carrier T) :
  type_ok T -> valid dm T v = true -> of_bytes dm T (to_bytes dm T v) = v.
Proof.
  destruct T as [k|c]; simpl; intros Hok Hv.
  - by apply scalar_value_bytes.
  - by apply (bytes_value c Hok).
Qed.

Lemma copy_init_equal dm T (v : carrier T) :
  type_ok T -> valid dm T v = true -> copy_init T v = v.
Proof.
  destruct T as [k|c]; simpl; intros Hok Hv; [done|].
  by apply (copy_equal c Hok).
Qed.

Lemma value_init_valid dm T : type_ok T -> valid dm T (value_init dm T) = true.
Proof.
  destruct T as [k|c]; simpl; intros Hok.
  - rewrite scalar_value_zeros. unfold scalar_valid.
    pose proof (scalar_bits_pos dm k).
    assert (0 < 2 ^ (scalar_bits dm k - 1)) by (apply Z.pow_pos_nonneg; lia).
    assert (0 < 2 ^ scalar_bits dm k) by (apply Z.pow_pos_nonneg; lia).
    destruct (scalar_signed k); apply andb_true_iff; lia.
  - apply (ctor_valid c Hok).
Qed.

(** ** The heap *)

Ltac run :=
  unfold mbind, prog_bind, mret, prog_ret, fail, constructed, destroyed,
    error_handler; cbn beta iota.

Lemma has_room_addr dm n m :
  (0 < n)%nat -> has_room dm n m = true ->
  0 <= brk m < 256 ^ Z.of_nat (sizeof_GenPtr dm).
Proof.
  unfold has_room. intros Hn H. apply andb_true_iff in H as [H1 H2]. lia.
Qed.

Lemma allocate_run dm n m :
  has_room dm n m = true -> allocate dm n m = Ret (brk m) (allocated n Indeterminate m).
Proof. unfold allocate. by intros ->. Qed.

Lemma allocate_full dm n m :
  has_room dm n m = false -> allocate dm n m = Fail bad_alloc m.
Proof. unfold allocate. by intros ->. Qed.

Lemma store_allocated n d bs m :
  length bs = n ->
  store (brk m) bs (allocated n d m) = Ret tt (allocated n (Init bs) m).
Proof.
  intros Hlen. unfold store, allocated. cbn.
  rewrite lookup_insert_eq. cbn. rewrite Hlen, Nat.eqb_refl.
  unfold set_heap, count_alloc, set_brk. cbn. by rewrite insert_insert_eq.
Qed.

Lemma load_allocated n bs m :
  load (brk m) n (allocated n (Init bs) m) = Some bs.
Proof.
  unfold load, allocated. cbn. rewrite lookup_insert_eq. by rewrite Nat.eqb_refl.
Qed.

Lemma load_count_ctor a n m : load a n (count_ctor m) = load a n m.
Proof. reflexivity. Qed.

Lemma deallocate_allocated n d m :
  deallocate (brk m) n (allocated n d m)
  = Ret tt (count_dealloc (set_heap (delete (brk m) (heap (allocated n d m)))
                                    (allocated n d m))).
Proof.
  unfold deallocate. unfold allocated at 1 2. cbn.
  rewrite lookup_insert_eq. cbn. by rewrite Nat.eqb_refl.
Qed.

Lemma operator_new_run dm T (init : option (carrier T)) m :
  has_room dm (sizeof dm T) m = true ->
  (forall v, init = Some v -> length (to_bytes dm T v) = sizeof dm T) ->
  operator_new dm T init m
  = Ret (brk m)
        (count_ctor (allocated (sizeof dm T)
                       (match init with
                        | Some v => Init (to_bytes dm T v)
                        | None => Indeterminate
                        end) m)).
Proof.
  intros Hroom Hlen. unfold operator_new. run.
  rewrite (allocate_run _ _ _ Hroom).
  destruct init as [v|]; [|done].
  by rewrite store_allocated by (by apply Hlen).
Qed.

Lemma operator_new_full dm T (init : option (carrier T)) m :
  has_room dm (sizeof dm T) m = false ->
  operator_new dm T init m = Fail bad_alloc m.
Proof.
  intros Hroom. unfold operator_new. run. by rewrite (allocate_full _ _ _ Hroom).
Qed.

(** ** The two branches of the templates *)

Section Templates.

Variable dm : data_model.
Variable T : cpp_type.

Lemma leda_create_template_small m :
  (sizeof dm T <= sizeof_GenPtr dm)%nat ->
  leda_create_template dm T m
  = Ret (to_bytes dm T (value_init dm T)
           ++ drop (length (to_bytes dm T (value_init dm T))) (null_GenPtr dm))
        (count_ctor m).
Proof.
  intros Hs. unfold leda_create_template.
  by rewrite (proj2 (Nat.leb_le _ _) Hs).
Qed.

Lemma leda_copy_template_small (x : carrier T) m :
  (sizeof dm T <= sizeof_GenPtr dm)%nat ->
  leda_copy_template dm T x m
  = Ret (to_bytes dm T (copy_init T x)
           ++ drop (length (to_bytes dm T (copy_init T x))) (null_GenPtr dm))
        (count_ctor m).
Proof.
  intros Hs. unfold leda_copy_template.
  by rewrite (proj2 (Nat.leb_le _ _) Hs).
Qed.

Lemma leda_create_template_big m :
  type_ok T ->
  (sizeof_GenPtr dm < sizeof dm T)%nat ->
  has_room dm (sizeof dm T) m = true ->
  leda_create_template dm T m
  = Ret (ptr_bytes dm (brk m))
        (count_ctor (allocated (sizeof dm T)
                       (match default_init T with
                        | Some v => Init (to_bytes dm T v)
                        | None => Indeterminate
                        end) m)).
Proof.
  intros Hok Hb Hroom. unfold leda_create_template.
  rewrite (proj2 (Nat.leb_gt _ _) Hb). run.
  rewrite operator_new_run; [done|done|].
  intros v Hv. apply length_to_bytes; [done|].
  destruct T as [k|c]; [done|]. by apply (new_valid c Hok).
Qed.

Lemma leda_copy_template_big (x : carrier T) m :
  type_ok T -> valid dm T x = true ->
  (sizeof_GenPtr dm < sizeof dm T)%nat ->
  has_room dm (sizeof dm T) m = true ->
  leda_copy_template dm T x m
  = Ret (ptr_bytes dm (brk m))
        (count_ctor (allocated (sizeof dm T) (Init (to_bytes dm T x)) m)).
Proof.
  intros Hok Hv Hb Hroom. unfold leda_copy_template.
  rewrite (proj2 (Nat.leb_gt _ _) Hb). run.
  rewrite (copy_init_equal dm T x Hok Hv).
  rewrite operator_new_run; [done|done|].
  intros v [= <-]. by apply length_to_bytes.
Qed.

Lemma leda_access_template_small p :
  (sizeof dm T <= sizeof_GenPtr dm)%nat -> leda_access_template dm T p = in_slot.
Proof.
  intros Hs. unfold leda_access_template. by rewrite (proj2 (Nat.leb_le _ _) Hs).
Qed.

Lemma leda_access_template_big p :
  (sizeof_GenPtr dm < sizeof dm T)%nat ->
  leda_access_template dm T p = at_addr (ptr_value p).
Proof.
  intros Hb. unfold leda_access_template. by rewrite (proj2 (Nat.leb_gt _ _) Hb).
Qed.

Lemma leda_const_access_template_eq p :
  leda_const_access_template dm T p = leda_access_template dm T p.
Proof. reflexivity. Qed.

(** Reading back an object built in place. *)
Lemma read_in_place (v : carrier T) m :
  type_ok T -> valid dm T v = true ->
  (sizeof dm T <= sizeof_GenPtr dm)%nat ->
  read dm T m (to_bytes dm T v ++ drop (length (to_bytes dm T v)) (null_GenPtr dm)) in_slot
  = Some v.
Proof.
  intros Hok Hv Hs. unfold read.
  pose proof (length_to_bytes dm T v Hok Hv) as Hlen.
  rewrite length_app, length_drop, length_null_GenPtr, Hlen.
  rewrite (proj2 (Nat.leb_le _ _)) by lia.
  rewrite take_app_length' by done.
  by rewrite of_to_bytes.
Qed.

(** Reading back an object built on the heap. *)
Lemma read_allocated (v : carrier T) m :
  type_ok T -> valid dm T v = true ->
  (sizeof_GenPtr dm < sizeof dm T)%nat ->
  has_room dm (sizeof dm T) m = true ->
  read dm T (count_ctor (allocated (sizeof dm T) (Init (to_bytes dm T v)) m))
       (ptr_bytes dm (brk m)) (at_addr (ptr_value (ptr_bytes dm (brk m))))
  = Some v.
Proof.
  intros Hok Hv Hb Hroom. unfold read.
  rewrite ptr_value_bytes by (apply (has_room_addr dm (sizeof dm T)); [lia|done]).
  rewrite load_count_ctor, load_allocated. cbn. by rewrite of_to_bytes.
Qed.

End Templates.

(** ** Overload resolution and the overloads for double *)

Lemma overload_resolution dm T :
  (dm = ILP32 /\ T = Scalar t_double) \/
  (leda_create dm T = leda_create_template dm T /\
   leda_copy dm T = leda_copy_template dm T /\
   leda_clear dm T = leda_clear_template dm T /\
   leda_access dm T = leda_access_template dm T /\
   leda_const_access dm T = leda_const_access_template dm T /\
   leda_cast dm T = leda_cast_template dm T).
Proof.
  destruct T as [[]|c]; try (right; by repeat split).
  destruct dm; [by left|right; by repeat split..].
Qed.

Lemma double_is_big_ILP32 :
  (sizeof_GenPtr ILP32 < sizeof ILP32 (Scalar t_double))%nat.
Proof. cbn. lia. Qed.

Lemma leda_copy_double_run x m :
  has_room ILP32 8 m = true ->
  leda_copy ILP32 (Scalar t_double) x m
  = Ret (ptr_bytes ILP32 (brk m))
        (allocated 8 (Init (scalar_bytes ILP32 t_double x)) m).
Proof.
  intros Hroom. cbn. unfold leda_copy_double. run.
  change (scalar_size ILP32 t_double) with 8%nat.
  rewrite (allocate_run _ _ _ Hroom).
  by rewrite store_allocated by apply length_scalar_bytes.
Qed.

Lemma leda_create_double_run m :
  has_room ILP32 8 m = true ->
  leda_create ILP32 (Scalar t_double) m
  = Ret (ptr_bytes ILP32 (brk m))
        (allocated 8 (Init (scalar_bytes ILP32 t_double 0)) m).
Proof.
  intros Hroom. cbn. unfold leda_create_double. run.
  change (scalar_size ILP32 t_double) with 8%nat.
  rewrite (allocate_run _ _ _ Hroom).
  by rewrite store_allocated by apply length_scalar_bytes.
Qed.

Lemma read_double_allocated v m :
  scalar_valid ILP32 t_double v = true ->
  has_room ILP32 8 m = true ->
  read ILP32 (Scalar t_double) (allocated 8 (Init (scalar_bytes ILP32 t_double v)) m)
       (ptr_bytes ILP32 (brk m))
       (leda_access ILP32 (Scalar t_double) (ptr_bytes ILP32 (brk m)))
  = Some v.
Proof.
  intros Hv Hroom. cbn [leda_access WORD_LENGTH_32]. unfold leda_access_double, read.
  rewrite ptr_value_bytes by (apply (has_room_addr ILP32 8); [lia|done]).
  change (sizeof ILP32 (Scalar t_double)) with 8%nat.
  rewrite load_allocated. cbn [fmap option_fmap option_map of_bytes].
  by rewrite scalar_value_bytes.
Qed.

(** ** C1: a copy reads back as the value copied *)

(** C1. For every type [T] with value semantics and every value [v] of [T], the
    slot made by [leda_copy] reads back, through [leda_access], as [v]: for a
    small [T], and for a big [T] whenever the allocation succeeds. *)
Theorem leda_copy_access_roundtrip dm T (v : carrier T) (m : machine) :
  type_ok T ->
  valid dm T v = true ->
  ((sizeof_GenPtr dm < sizeof dm T)%nat -> has_room dm (sizeof dm T) m = true) ->
  exists p m',
    leda_copy dm T v m = Ret p m' /\
    read dm T m' p (leda_access dm T p) = Some v.
Proof.
  intros Hok Hv Hroom.
  destruct (overload_resolution dm T) as [[-> ->]|(_ & Hcopy & _ & Hacc & _)].
  - specialize (Hroom double_is_big_ILP32).
    eexists _, _. split; [by apply leda_copy_double_run|].
    by apply read_double_allocated.
  - rewrite Hcopy, Hacc.
    destruct (le_lt_dec (sizeof dm T) (sizeof_GenPtr dm)) as [Hs|Hb].
    + eexists _, _. split; [by apply leda_copy_template_small|].
      rewrite leda_access_template_small by done.
      rewrite (copy_init_equal dm T v Hok Hv). by apply read_in_place.
    + eexists _, _. split; [by apply leda_copy_template_big; auto|].
      rewrite leda_access_template_big by done.
      by apply read_allocated; auto.
Qed.

Lemma pod_struct_ok n : class_ok (pod_struct n).
Proof.
  split; cbn; try done.
  - intros v Hv. by apply Nat.eqb_eq.
  - unfold zeros. rewrite length_replicate. apply Nat.eqb_refl.
Qed.

Lemma leda_copy_access_roundtrip_witness :
  (exists p m',
     leda_copy LP64 (Class (pod_struct 12)) (le_bytes 12 2026) empty_machine = Ret p m' /\
     read LP64 (Class (pod_struct 12)) m' p (leda_access LP64 (Class (pod_struct 12)) p)
     = Some (le_bytes 12 2026)) /\
  (exists p m',
     leda_copy ILP32 (Scalar t_short) (-7) empty_machine = Ret p m' /\
     read ILP32 (Scalar t_short) m' p (leda_access ILP32 (Scalar t_short) p) = Some (-7)).
Proof.
  split.
  - apply (leda_copy_access_roundtrip LP64 (Class (pod_struct 12)) (le_bytes 12 2026)
             empty_machine (pod_struct_ok 12)); [reflexivity|].
    intros _. reflexivity.
  - apply (leda_copy_access_roundtrip ILP32 (Scalar t_short) (-7) empty_machine I);
      [reflexivity|].
    cbn. lia.
Defined.

(** ** C3: a created scalar slot reads as zero *)

Lemma scalar_small_or_double dm k :
  (scalar_size dm k <= sizeof_GenPtr dm)%nat \/ (dm = ILP32 /\ k = t_double).
Proof. destruct k, dm; cbn; (left; lia) || (by right). Qed.

(** C3. For every built-in scalar type (char, short, int, long, float and
    double among them), on every data model, the slot made by [leda_create]
    reads back through [leda_access] as the zero of the type, that is [0]
    converted to it: in place where the scalar is small, and through the
    heap for the one big scalar, [double] of the 32-bit build. *)
Theorem leda_create_scalar_zero dm (k : scalar) (m : machine) :
  ((sizeof_GenPtr dm < scalar_size dm k)%nat ->
   has_room dm (scalar_size dm k) m = true) ->
  exists p m',
    leda_create dm (Scalar k) m = Ret p m' /\
    read dm (Scalar k) m' p (leda_access dm (Scalar k) p) = Some (scalar_of_int dm k 0) /\
    scalar_of_int dm k 0 = 0.
Proof.
  intros Hroom. rewrite scalar_of_int_zero.
  destruct (scalar_small_or_double dm k) as [Hs|[-> ->]].
  - destruct (overload_resolution dm (Scalar k)) as [[-> [= ->]]|(Hcr & _ & _ & Hacc & _)].
    { cbn in Hs. lia. }
    rewrite Hcr, Hacc. eexists _, _. split; [by apply leda_create_template_small|].
    split; [|done].
    rewrite leda_access_template_small by done.
    rewrite read_in_place; [|done|by apply value_init_valid|done].
    cbn. by rewrite scalar_value_zeros.
  - specialize (Hroom double_is_big_ILP32).
    eexists _, _. split; [by apply leda_create_double_run|].
    split; [|done]. by apply read_double_allocated.
Qed.

Lemma leda_create_scalar_zero_witness :
  (exists p m',
     leda_create ILP32 (Scalar t_double) empty_machine = Ret p m' /\
     read ILP32 (Scalar t_double) m' p (leda_access ILP32 (Scalar t_double) p)
     = Some (scalar_of_int ILP32 t_double 0) /\
     scalar_of_int ILP32 t_double 0 = 0) /\
  (exists p m',
     leda_create LP64 (Scalar t_long) empty_machine = Ret p m' /\
     read LP64 (Scalar t_long) m' p (leda_access LP64 (Scalar t_long) p)
     = Some (scalar_of_int LP64 t_long 0) /\
     scalar_of_int LP64 t_long 0 = 0).
Proof.
  split.
  - apply (leda_create_scalar_zero ILP32 t_double empty_machine).
    intros _. reflexivity.
  - apply (leda_create_scalar_zero LP64 t_long empty_machine).
    cbn. lia.
Defined.

(** ** Counting allocations *)

Lemma leda_clear_template_small dm T r m :
  (sizeof dm T <= sizeof_GenPtr dm)%nat ->
  leda_clear_template dm T r m = Ret tt (count_dtor m).
Proof.
  intros Hs. unfold leda_clear_template. by rewrite (proj2 (Nat.leb_le _ _) Hs).
Qed.

Lemma leda_clear_template_big dm T a m :
  (sizeof_GenPtr dm < sizeof dm T)%nat ->
  leda_clear_template dm T (at_addr a) m = operator_delete dm T a m.
Proof.
  intros Hb. unfold leda_clear_template. by rewrite (proj2 (Nat.leb_gt _ _) Hb).
Qed.

Lemma deallocate_counts a n m :
  match deallocate a n m with
  | Ret _ m' => n_alloc m' = n_alloc m /\ n_dealloc m' = S (n_dealloc m)
  | Fail _ _ => True
  end.
Proof.
  unfold deallocate. destruct (heap m !! a) as [b|]; [|done].
  by destruct (Nat.eqb (blk_size b) n).
Qed.

Lemma operator_delete_counts dm T a m :
  match operator_delete dm T a m with
  | Ret _ m' => n_alloc m' = n_alloc m /\ n_dealloc m' = S (n_dealloc m)
  | Fail _ _ => True
  end.
Proof.
  unfold operator_delete. run.
  apply (deallocate_counts a (sizeof dm T) (count_dtor m)).
Qed.

Lemma operator_delete_allocated dm T d m :
  exists m',
    operator_delete dm T (brk m) (count_ctor (allocated (sizeof dm T) d m)) = Ret tt m' /\
    n_alloc m' = S (n_alloc m) /\ n_dealloc m' = S (n_dealloc m) /\
    heap m' !! brk m = None.
Proof.
  unfold operator_delete, deallocate, allocated. run. cbn.
  rewrite lookup_insert_eq. cbn. rewrite Nat.eqb_refl.
  eexists. split; [done|]. cbn. by rewrite lookup_delete_eq.
Qed.

Lemma store_counts a bs m :
  match store a bs m with
  | Ret _ m' => n_alloc m' = n_alloc m /\ n_dealloc m' = n_dealloc m
  | Fail _ _ => True
  end.
Proof.
  unfold store. destruct (heap m !! a) as [b|]; [|done].
  by destruct (Nat.eqb (blk_size b) (length bs)).
Qed.

Lemma operator_new_counts dm T init m :
  match operator_new dm T init m with
  | Ret _ m' => n_alloc m' = S (n_alloc m) /\ n_dealloc m' = n_dealloc m
  | Fail _ _ => True
  end.
Proof.
  unfold operator_new, allocate. run.
  destruct (has_room dm (sizeof dm T) m); [|done].
  destruct init as [v|]; [|done].
  pose proof (store_counts (brk m) (to_bytes dm T v)
                (allocated (sizeof dm T) Indeterminate m)) as H.
  by destruct (store _ _ _).
Qed.

(** ** C6: heap traffic of create, copy and clear *)

(** C6. For a small [T], [leda_create], [leda_copy] and [leda_clear] return
    with the heap and the allocation and deallocation counts unchanged.  For
    a big [T] (the allocation succeeding), [leda_create] and [leda_copy] each
    perform exactly one allocation and no deallocation, and the matching
    [leda_clear] of the slot, [LEDA_CLEAR(T,p)], exactly one deallocation and
    no allocation. *)
Theorem heap_allocation_discipline dm T (m : machine) :
  type_ok T ->
  ((sizeof dm T <= sizeof_GenPtr dm)%nat ->
     (exists p m', leda_create dm T m = Ret p m' /\ heap_untouched m m') /\
     (forall x, exists p m', leda_copy dm T x m = Ret p m' /\ heap_untouched m m') /\
     (forall r, exists m', leda_clear dm T r m = Ret tt m' /\ heap_untouched m m'))
  /\
  ((sizeof_GenPtr dm < sizeof dm T)%nat ->
   has_room dm (sizeof dm T) m = true ->
     (exists p m' m'',
        leda_create dm T m = Ret p m' /\
        n_alloc m' = S (n_alloc m) /\ n_dealloc m' = n_dealloc m /\
        LEDA_CLEAR dm T p m' = Ret tt m'' /\
        n_alloc m'' = n_alloc m' /\ n_dealloc m'' = S (n_dealloc m')) /\
     (forall x, valid dm T x = true ->
      exists p m' m'',
        leda_copy dm T x m = Ret p m' /\
        n_alloc m' = S (n_alloc m) /\ n_dealloc m' = n_dealloc m /\
        LEDA_CLEAR dm T p m' = Ret tt m'' /\
        n_alloc m'' = n_alloc m' /\ n_dealloc m'' = S (n_dealloc m'))).
Proof.
  intros Hok. unfold LEDA_CLEAR.
  destruct (overload_resolution dm T)
    as [[-> ->]|(Hcr & Hcp & Hcl & Hacc & _)].
  - split; [cbn; lia|]. intros _ Hroom.
    change (sizeof ILP32 (Scalar t_double)) with 8%nat in Hroom.
    assert (Hclear : forall d,
      exists m'', leda_clear ILP32 (Scalar t_double)
                    (leda_access ILP32 (Scalar t_double) (ptr_bytes ILP32 (brk m)))
                    (allocated 8 d m) = Ret tt m'' /\
                  n_alloc m'' = n_alloc (allocated 8 d m) /\
                  n_dealloc m'' = S (n_dealloc (allocated 8 d m))).
    { intros d. cbn [leda_clear leda_access WORD_LENGTH_32].
      unfold leda_access_double, leda_clear_double.
      rewrite ptr_value_bytes by (apply (has_room_addr ILP32 8); [lia|done]).
      change (scalar_size ILP32 t_double) with 8%nat.
      rewrite deallocate_allocated. by eexists. }
    split.
    + destruct (Hclear (Init (scalar_bytes ILP32 t_double 0))) as (m'' & H1 & H2 & H3).
      eexists _, _, m''. split; [by apply leda_create_double_run|]. by repeat split.
    + intros x _.
      destruct (Hclear (Init (scalar_bytes ILP32 t_double x))) as (m'' & H1 & H2 & H3).
      eexists _, _, m''. split; [by apply leda_copy_double_run|]. by repeat split.
  - rewrite Hcr, Hcp, Hcl, Hacc. split.
    + intros Hs. repeat split.
      * eexists _, _. split; [by apply leda_create_template_small|done].
      * intros x. eexists _, _. split; [by apply leda_copy_template_small|done].
      * intros r. eexists. split; [by apply leda_clear_template_small|done].
    + intros Hb Hroom.
      assert (Haddr : ptr_value (ptr_bytes dm (brk m)) = brk m)
        by (apply ptr_value_bytes, (has_room_addr dm (sizeof dm T)); [lia|done]).
      assert (Hclear : forall d,
        exists m'', leda_clear_template dm T
                      (leda_access_template dm T (ptr_bytes dm (brk m)))
                      (count_ctor (allocated (sizeof dm T) d m)) = Ret tt m'' /\
                    n_alloc m'' = S (n_alloc m) /\ n_dealloc m'' = S (n_dealloc m)).
      { intros d. rewrite leda_access_template_big, Haddr by done.
        rewrite leda_clear_template_big by done.
        destruct (operator_delete_allocated dm T d m) as (m'' & H1 & H2 & H3 & _).
        by exists m''. }
      split.
      * destruct (Hclear (match default_init T with
                          | Some v => Init (to_bytes dm T v)
                          | None => Indeterminate
                          end)) as (m'' & H1 & H2 & H3).
        eexists _, _, m''. split; [by apply leda_create_template_big|].
        by repeat split.
      * intros x Hx.
        destruct (Hclear (Init (to_bytes dm T x))) as (m'' & H1 & H2 & H3).
        eexists _, _, m''. split; [by apply leda_copy_template_big|].
        by repeat split.
Qed.

Lemma heap_allocation_discipline_witness :
  (exists p m',
     leda_create LP64 (Scalar t_int) empty_machine = Ret p m' /\
     heap_untouched empty_machine m') /\
  (exists p m' m'',
     leda_copy LP64 (Class (pod_struct 12)) (le_bytes 12 2026) empty_machine = Ret p m' /\
     n_alloc m' = S (n_alloc empty_machine) /\ n_dealloc m' = n_dealloc empty_machine /\
     LEDA_CLEAR LP64 (Class (pod_struct 12)) p m' = Ret tt m'' /\
     n_alloc m'' = n_alloc m' /\ n_dealloc m'' = S (n_dealloc m')).
Proof.
  split.
  - apply (proj1 (heap_allocation_discipline LP64 (Scalar t_int) empty_machine I)).
    cbn. lia.
  - apply (proj2 (heap_allocation_discipline LP64 (Class (pod_struct 12)) empty_machine
                    (pod_struct_ok 12))); [cbn; lia | reflexivity | reflexivity].
Defined.

(** ** C4: one size predicate for all operations *)

Lemma heap_free_unchanged {A} (c : prog machine A) m a m' :
  c m = Ret a m' -> n_alloc m' = n_alloc m -> n_dealloc m' = n_dealloc m ->
  heap_free c m = true.
Proof.
  intros Hc H1 H2. unfold heap_free. rewrite Hc, H1, H2.
  by rewrite !Nat.eqb_refl.
Qed.

Lemma heap_free_counted {A} (c : prog machine A) m :
  match c m with
  | Ret _ m' => n_alloc m' = S (n_alloc m) \/ n_dealloc m' = S (n_dealloc m)
  | Fail _ _ => True
  end ->
  heap_free c m = false.
Proof.
  unfold heap_free. destruct (c m) as [a m'|f m']; [|done].
  intros [H|H]; rewrite H.
  - rewrite (proj2 (Nat.eqb_neq _ _)) by lia. done.
  - rewrite (proj2 (Nat.eqb_neq (S _) _)) by lia. apply andb_false_r.
Qed.

Lemma allocate_store_counts dm n bs m :
  match (p ← allocate dm n; store p bs ;; mret (ptr_bytes dm p)) m with
  | Ret _ m' => n_alloc m' = S (n_alloc m) \/ n_dealloc m' = S (n_dealloc m)
  | Fail _ _ => True
  end.
Proof.
  unfold allocate. run. destruct (has_room dm n m); [|done].
  pose proof (store_counts (brk m) bs (allocated n Indeterminate m)) as H.
  destruct (store _ _ _); [|done]. left. by destruct H.
Qed.

(** C4. Every lifecycle operation sorts [T] by the one test
    [sizeof(T) <= sizeof(GenPtr)]: [leda_create], [leda_copy] and
    [leda_clear] return without touching the allocator exactly when the test
    holds, and [leda_access] and [leda_const_access] refer to the slot's own
    bytes exactly when it holds.  In particular a [T] of pointer size is
    handled in place by all five. *)
Theorem size_class_consistent dm T (x : carrier T) (r : ref) (p : GenPtr) (m : machine) :
  (heap_free (leda_create dm T) m = (sizeof dm T <=? sizeof_GenPtr dm)%nat /\
   heap_free (leda_copy dm T x) m = (sizeof dm T <=? sizeof_GenPtr dm)%nat /\
   heap_free (leda_clear dm T r) m = (sizeof dm T <=? sizeof_GenPtr dm)%nat /\
   is_in_slot (leda_access dm T p) = (sizeof dm T <=? sizeof_GenPtr dm)%nat /\
   is_in_slot (leda_const_access dm T p) = (sizeof dm T <=? sizeof_GenPtr dm)%nat)
  /\
  (sizeof dm T = sizeof_GenPtr dm ->
   heap_free (leda_create dm T) m = true /\
   heap_free (leda_copy dm T x) m = true /\
   heap_free (leda_clear dm T r) m = true /\
   is_in_slot (leda_access dm T p) = true /\
   is_in_slot (leda_const_access dm T p) = true).
Proof.
  assert (Hall :
    heap_free (leda_create dm T) m = (sizeof dm T <=? sizeof_GenPtr dm)%nat /\
    heap_free (leda_copy dm T x) m = (sizeof dm T <=? sizeof_GenPtr dm)%nat /\
    heap_free (leda_clear dm T r) m = (sizeof dm T <=? sizeof_GenPtr dm)%nat /\
    is_in_slot (leda_access dm T p) = (sizeof dm T <=? sizeof_GenPtr dm)%nat /\
    is_in_slot (leda_const_access dm T p) = (sizeof dm T <=? sizeof_GenPtr dm)%nat).
  { destruct (overload_resolution dm T)
      as [[-> ->]|(Hcr & Hcp & Hcl & Hacc & Hcacc & _)].
    - change (sizeof ILP32 (Scalar t_double) <=? sizeof_GenPtr ILP32)%nat with false.
      repeat split; try reflexivity.
      + apply heap_free_counted. cbn [leda_create WORD_LENGTH_32].
        apply allocate_store_counts.
      + apply heap_free_counted. cbn [leda_copy WORD_LENGTH_32].
        apply allocate_store_counts.
      + apply heap_free_counted. cbn [leda_clear WORD_LENGTH_32].
        destruct r as [|a]; [done|]. cbn.
        pose proof (deallocate_counts a 8 m) as H.
        destruct (deallocate a 8 m); [|done]. right. by destruct H.
    - rewrite Hcr, Hcp, Hcl, Hacc, Hcacc.
      destruct (Nat.leb_spec (sizeof dm T) (sizeof_GenPtr dm)) as [Hs|Hb].
      + repeat split.
        * by eapply heap_free_unchanged; [apply leda_create_template_small|..].
        * by eapply heap_free_unchanged; [apply leda_copy_template_small|..].
        * by eapply heap_free_unchanged; [apply leda_clear_template_small|..].
        * by rewrite leda_access_template_small.
        * by rewrite leda_const_access_template_eq, leda_access_template_small.
      + repeat split.
        * apply heap_free_counted. unfold leda_create_template.
          rewrite (proj2 (Nat.leb_gt _ _) Hb). run.
          pose proof (operator_new_counts dm T (default_init T) m) as H.
          destruct (operator_new _ _ _ _); [|done]. left. by destruct H.
        * apply heap_free_counted. unfold leda_copy_template.
          rewrite (proj2 (Nat.leb_gt _ _) Hb). run.
          pose proof (operator_new_counts dm T (Some (copy_init T x)) m) as H.
          destruct (operator_new _ _ _ _); [|done]. left. by destruct H.
        * apply heap_free_counted. destruct r as [|a].
          { unfold leda_clear_template. by rewrite (proj2 (Nat.leb_gt _ _) Hb). }
          rewrite leda_clear_template_big by done.
          pose proof (operator_delete_counts dm T a m) as H.
          destruct (operator_delete _ _ _ _); [|done]. right. by destruct H.
        * by rewrite leda_access_template_big.
        * by rewrite leda_const_access_template_eq, leda_access_template_big. }
  split; [exact Hall|].
  intros Heq. rewrite <- (proj2 (Nat.leb_le (sizeof dm T) (sizeof_GenPtr dm))) by lia.
  exact Hall.
Qed.

Lemma size_class_consistent_witness :
  sizeof LP64 (Scalar t_long) = sizeof_GenPtr LP64 /\
  heap_free (leda_create LP64 (Scalar t_long)) empty_machine = true /\
  heap_free (leda_copy LP64 (Scalar t_long) 5) empty_machine = true /\
  heap_free (leda_clear LP64 (Scalar t_long) in_slot) empty_machine = true /\
  is_in_slot (leda_access LP64 (Scalar t_long) (null_GenPtr LP64)) = true /\
  is_in_slot (leda_const_access LP64 (Scalar t_long) (null_GenPtr LP64)) = true.
Proof.
  split; [reflexivity|].
  apply (proj2 (size_class_consistent LP64 (Scalar t_long) 5 in_slot (null_GenPtr LP64)
                  empty_machine)).
  reflexivity.
Defined.

(** ** C2: the three branches of leda_cast *)

(** C2 (as amended). [leda_cast] of an object [x] at address [addr_x]: a [T]
    bigger than a pointer gives the address of [x], a [T] of pointer size
    gives the bytes of [x], both leaving the machine as it was; a [T]
    smaller than a pointer gives [leda_copy(x)], which builds the copy in the
    slot's own bytes and does not touch the allocator. *)
Theorem leda_cast_three_branches dm T (addr_x : Z) (x : carrier T) (m : machine) :
  ((sizeof_GenPtr dm < sizeof dm T)%nat ->
     leda_cast dm T addr_x x m = Ret (ptr_bytes dm addr_x) m) /\
  (sizeof dm T = sizeof_GenPtr dm ->
     leda_cast dm T addr_x x m = Ret (to_bytes dm T x) m) /\
  ((sizeof dm T < sizeof_GenPtr dm)%nat ->
     leda_cast dm T addr_x x m = leda_copy dm T x m /\
     leda_cast dm T addr_x x m
     = Ret (to_bytes dm T (copy_init T x)
              ++ drop (length (to_bytes dm T (copy_init T x))) (null_GenPtr dm))
           (count_ctor m) /\
     heap_free (leda_cast dm T addr_x x) m = true).
Proof.
  destruct (overload_resolution dm T) as [[-> ->]|(_ & Hcp & _ & _ & _ & Hcast)].
  - cbn. repeat split; (done || lia).
  - rewrite Hcast. unfold leda_cast_template. split; [|split].
    + intros Hb. by rewrite (proj2 (Nat.ltb_lt _ _) Hb).
    + intros He. rewrite (proj2 (Nat.ltb_ge _ _)) by lia.
      by rewrite (proj2 (Nat.eqb_eq _ _) He).
    + intros Hs. rewrite (proj2 (Nat.ltb_ge _ _)) by lia.
      rewrite (proj2 (Nat.eqb_neq _ _)) by lia.
      rewrite (proj2 (Nat.ltb_lt _ _) Hs), Hcp.
      split; [done|].
      split; [apply leda_copy_template_small; lia|].
      eapply heap_free_unchanged;
        [apply leda_copy_template_small; lia | reflexivity..].
Qed.

Lemma leda_cast_three_branches_witness :
  leda_cast LP64 (Class (pod_struct 12)) 4096 (le_bytes 12 2026) empty_machine
  = Ret (ptr_bytes LP64 4096) empty_machine /\
  leda_cast LP64 (Scalar t_double) 4096 4607182418800017408 empty_machine
  = Ret (to_bytes LP64 (Scalar t_double) 4607182418800017408) empty_machine /\
  heap_free (leda_cast LP64 (Scalar t_char) 4096 65) empty_machine = true.
Proof.
  split; [|split].
  - apply (proj1 (leda_cast_three_branches LP64 (Class (pod_struct 12)) 4096
                    (le_bytes 12 2026) empty_machine)).
    cbn. lia.
  - apply (proj1 (proj2 (leda_cast_three_branches LP64 (Scalar t_double) 4096
                           4607182418800017408 empty_machine))).
    reflexivity.
  - apply (proj2 (proj2 (leda_cast_three_branches LP64 (Scalar t_char) 4096 65
                           empty_machine))).
    cbn. lia.
Defined.

(** C2 as first stated, with an allocation in the smaller case, does not
    hold: casting a [char] on the 64-bit build (one byte against eight)
    returns without any allocation. *)
Lemma leda_cast_smaller_does_not_allocate :
  (sizeof LP64 (Scalar t_char) < sizeof_GenPtr LP64)%nat /\
  ~ allocates (leda_cast LP64 (Scalar t_char) 4096 65) empty_machine.
Proof.
  split; [cbn; lia|].
  intros (p & m' & Hrun & Hlt).
  vm_compute in Hrun. injection Hrun as _ <-. cbn in Hlt. lia.
Qed.

(** ** C5: compare *)

Lemma swo_asym {T} (lt : T -> T -> bool) :
  strict_weak_order lt -> forall x y, lt x y = true -> lt y x = false.
Proof.
  intros Hswo x y Hxy. destruct (lt y x) eqn:Hyx; [|done].
  pose proof (swo_trans lt Hswo x y x Hxy Hyx) as Hxx.
  by rewrite (swo_irrefl lt Hswo x) in Hxx.
Qed.

Lemma Z_ltb_strict_weak_order : strict_weak_order Z.ltb.
Proof. split; intros; lia. Qed.

(** C5. [compare(x,y)] is [-1] when [x < y], else [+1] when [y < x], else
    [0]; and when [<] is a strict weak order, [compare(x,y)] is [+1] whenever
    [y < x], [compare(x,y) = - compare(y,x)] and [compare(x,x) = 0]. *)
Theorem compare_three_way {T} `{Less T} (x y : T) :
  (less x y = true -> compare x y = -1) /\
  (less x y = false -> less y x = true -> compare x y = 1) /\
  (less x y = false -> less y x = false -> compare x y = 0) /\
  (strict_weak_order (less (T:=T)) ->
     (less y x = true -> compare x y = 1) /\
     compare x y = - compare y x /\
     compare x x = 0).
Proof.
  unfold compare. split; [|split; [|split]].
  - by intros ->.
  - by intros -> ->.
  - by intros -> ->.
  - intros Hswo. split; [|split].
    + intros Hyx. by rewrite (swo_asym _ Hswo y x Hyx), Hyx.
    + destruct (less x y) eqn:Hxy.
      * by rewrite (swo_asym _ Hswo x y Hxy).
      * by destruct (less y x).
    + by rewrite (swo_irrefl _ Hswo x).
Qed.

Lemma compare_three_way_witness :
  compare 3 5 = -1 /\ compare 5 3 = 1 /\ compare 4 4 = 0 /\
  compare 3 5 = - compare 5 3.
Proof.
  split; [|split; [|split]].
  - apply (proj1 (compare_three_way 3 5)). reflexivity.
  - apply (proj1 (proj2 (compare_three_way 5 3))); reflexivity.
  - apply (proj1 (proj2 (proj2 (compare_three_way 4 4)))); reflexivity.
  - apply (proj2 (proj2 (proj2 (compare_three_way 3 5))) Z_ltb_strict_weak_order).
Defined.

(** ** C7: the default input operator *)

(** C7 (as amended). [in >> x] for a [GenPtr] [x] ends, on every stream and
    every slot, in the fatal error 1 with the message
    "stream input operator (>>) not defined", with the stream and [x] as
    they were. *)
Theorem operator_shr_always_fails (istream : Type) (inp : istream) (x : GenPtr) :
  operator_shr istream x inp
  = Fail (fatal_error 1 "stream input operator (>>) not defined") inp /\
  read_GenPtr istream (inp, x)
  = Fail (fatal_error 1 "stream input operator (>>) not defined") (inp, x).
Proof. split; reflexivity. Qed.

(** C7 as first stated does not hold: the message reported is not
    "stream input not defined". *)
Lemma operator_shr_message_differs :
  operator_shr (list byte) (null_GenPtr LP64) []
  <> Fail (fatal_error 1 "stream input not defined") [].
Proof. discriminate. Qed.

(** ** C8: leda_cmp_base *)

(** C8. Calling a [leda_cmp_base] that holds no function (as after default
    construction) ends in the fatal error 1 whose message is the class name
    followed by "compare undefined"; calling one that holds a function [c]
    returns [c(x,y)]. *)
Theorem leda_cmp_base_call_spec {S T : Type} (x y : T) (s : S) :
  leda_cmp_base_call leda_cmp_base_default x y s
  = Fail (fatal_error 1 ("leda_cmp_base: " ++ "compare undefined")) s /\
  (forall dyn,
     leda_cmp_base_call (leda_cmp_base_ctor None dyn) x y s
     = Fail (fatal_error 1 ("leda_cmp_base: " ++ "compare undefined")) s) /\
  (forall (c : T -> T -> Z) dyn,
     leda_cmp_base_call (leda_cmp_base_ctor (Some c) dyn) x y s = Ret (c x y) s).
Proof. repeat split. Qed.

(** ** C9: the smaller predicates *)

Lemma Z_ltb_decide (r : Z) : (r <? 0) = bool_decide (r < 0).
Proof.
  destruct (Z.ltb_spec r 0).
  - by rewrite bool_decide_eq_true_2.
  - rewrite bool_decide_eq_false_2; [done|lia].
Qed.

(** C9. Each predicate answers whether its three-way comparison of [(x,y)]
    is negative: [smaller_default] that of [compare], [smaller_cmp_func] that
    of the wrapped function, [smaller_cmp_obj] that of the wrapped
    comparison object (whose failure, if any, is passed on). *)
Theorem smaller_iff_negative {S T CMP : Type} `{Less T} `{Comparator S CMP T}
    (c : T -> T -> Z) (cmp : CMP) (x y : T) (s : S) :
  smaller_default_call Build_smaller_default x y = bool_decide (compare x y < 0) /\
  smaller_cmp_func_call (Build_smaller_cmp_func (Some c)) x y s
  = Ret (bool_decide (c x y < 0)) s /\
  smaller_cmp_obj_call (Build_smaller_cmp_obj cmp) x y s
  = match cmp_call cmp x y s with
    | Ret r s' => Ret (bool_decide (r < 0)) s'
    | Fail f s' => Fail f s'
    end.
Proof.
  repeat split.
  - apply Z_ltb_decide.
  - unfold smaller_cmp_func_call. run. cbn. by rewrite Z_ltb_decide.
  - unfold smaller_cmp_obj_call. run. cbn.
    destruct (cmp_call cmp x y s); [|done]. by rewrite Z_ltb_decide.
Qed.

(** ** C10: the scalar overloads of leda_init_default *)

(** C10. For each built-in scalar type the overload of [leda_init_default]
    (which assigns [0]) leaves its argument with the value the template
    (which assigns [T()]) would leave. *)
Theorem leda_init_default_overload_refines dm (k : scalar) (x : Z) :
  leda_init_default dm (Scalar k) x = leda_init_default_template dm (Scalar k) x.
Proof.
  unfold leda_init_default_template. cbn [value_init].
  rewrite scalar_value_zeros.
  destruct k; cbn [leda_init_default];
    unfold leda_init_default_char, leda_init_default_short, leda_init_default_int,
      leda_init_default_long, leda_init_default_uchar, leda_init_default_ushort,
      leda_init_default_uint, leda_init_default_ulong, leda_init_default_float,
      leda_init_default_double;
    apply scalar_of_int_zero.
Qed.

(** ** Worked examples *)

Example ieee_of_Z_float_one : ieee_of_Z 23 8 1 = 0x3f800000.
Proof. reflexivity. Qed.

Example ieee_of_Z_double_minus_two : ieee_of_Z 52 11 (-2) = 0xc000000000000000.
Proof. reflexivity. Qed.

Example ieee_of_Z_float_rounds_to_even :
  ieee_of_Z 23 8 16777217 = ieee_of_Z 23 8 16777216 /\
  ieee_of_Z 23 8 16777219 = ieee_of_Z 23 8 16777220.
Proof. split; reflexivity. Qed.

Example scalar_of_int_wraps :
  scalar_of_int LP64 t_char 200 = -56 /\ scalar_of_int LP64 t_uchar (-1) = 255.
Proof. split; reflexivity. Qed.

(** An [int] slot: created it reads 0, a copy of 42 reads 42, and after both
    are cleared as many objects were destroyed as were constructed, with the
    allocator never called. *)
Example int_slot_scenario :
  exists p m1 q m2 m3 m4,
    LEDA_CREATE LP64 (Scalar t_int) empty_machine = Ret p m1 /\
    LEDA_ACCESS LP64 (Scalar t_int) m1 p = Some 0 /\
    leda_copy LP64 (Scalar t_int) 42 m1 = Ret q m2 /\
    LEDA_CONST_ACCESS LP64 (Scalar t_int) m2 q = Some 42 /\
    LEDA_CLEAR LP64 (Scalar t_int) q m2 = Ret tt m3 /\
    LEDA_CLEAR LP64 (Scalar t_int) p m3 = Ret tt m4 /\
    n_ctor m4 = n_dtor m4 /\ n_alloc m4 = 0%nat /\ n_dealloc m4 = 0%nat.
Proof. do 6 eexists. repeat split. Qed.

(** A 12-byte struct on the 64-bit build: one allocation for the copy, one
    deallocation for the clear, and the heap is empty again. *)
Example big_slot_scenario :
  exists p m1 m2,
    leda_copy LP64 (Class (pod_struct 12)) (le_bytes 12 2026) empty_machine = Ret p m1 /\
    p = ptr_bytes LP64 16 /\
    LEDA_ACCESS LP64 (Class (pod_struct 12)) m1 p = Some (le_bytes 12 2026) /\
    n_alloc m1 = 1%nat /\
    LEDA_CLEAR LP64 (Class (pod_struct 12)) p m1 = Ret tt m2 /\
    n_alloc m2 = 1%nat /\ n_dealloc m2 = 1%nat /\ n_ctor m2 = n_dtor m2 /\
    heap m2 = ∅.
Proof. do 3 eexists. repeat split. Qed.

(** Clearing a big slot twice leaves defined behaviour. *)
Example double_clear_undefined :
  exists p m1 m2 m3,
    leda_copy ILP32 (Scalar t_double) 0 empty_machine = Ret p m1 /\
    LEDA_CLEAR ILP32 (Scalar t_double) p m1 = Ret tt m2 /\
    LEDA_CLEAR ILP32 (Scalar t_double) p m2 = Fail undefined_behaviour m3.
Proof. do 4 eexists. repeat split. Qed.

(** A [smaller_cmp_obj] over a [leda_cmp_base]: with [compare] installed it
    orders, without a function it ends in the comparator's fatal error. *)
Example smaller_cmp_obj_over_leda_cmp_base :
  smaller_cmp_obj_call
    (Build_smaller_cmp_obj (leda_cmp_base_ctor (Some (compare (T:=Z))) false)) 1 2 tt
  = Ret true tt /\
  smaller_cmp_obj_call
    (Build_smaller_cmp_obj (leda_cmp_base_default (T:=Z))) 1 2 tt
  = Fail (fatal_error 1 "leda_cmp_base: compare undefined") tt.
Proof. split; reflexivity. Qed.

(** * Further properties *)

(** ** What the operations do to the heap *)

Lemma has_double_overload_cases dm T :
  (has_double_overload dm T = true /\ dm = ILP32 /\ T = Scalar t_double) \/
  (has_double_overload dm T = false /\
   leda_create dm T = leda_create_template dm T /\
   leda_copy dm T = leda_copy_template dm T /\
   leda_clear dm T = leda_clear_template dm T /\
   leda_access dm T = leda_access_template dm T /\
   leda_const_access dm T = leda_const_access_template dm T /\
   leda_cast dm T = leda_cast_template dm T).
Proof.
  destruct T as [[]|c]; try (right; by repeat split).
  destruct dm; [by left|right; by repeat split..].
Qed.

Lemma leda_access_small dm T p :
  (sizeof dm T <= sizeof_GenPtr dm)%nat -> leda_access dm T p = in_slot.
Proof.
  intros Hs. destruct (has_double_overload_cases dm T)
    as [(_ & -> & ->)|(_ & _ & _ & _ & -> & _)].
  - cbn in Hs. lia.
  - by apply leda_access_template_small.
Qed.

Lemma leda_access_big dm T p :
  (sizeof_GenPtr dm < sizeof dm T)%nat -> leda_access dm T p = at_addr (ptr_value p).
Proof.
  intros Hb. destruct (has_double_overload_cases dm T)
    as [(_ & -> & ->)|(_ & _ & _ & _ & -> & _)].
  - reflexivity.
  - by apply leda_access_template_big.
Qed.

Lemma leda_copy_small_run dm T (x : carrier T) m :
  (sizeof dm T <= sizeof_GenPtr dm)%nat ->
  leda_copy dm T x m
  = Ret (to_bytes dm T (copy_init T x)
           ++ drop (length (to_bytes dm T (copy_init T x))) (null_GenPtr dm))
        (count_ctor m).
Proof.
  intros Hs. destruct (has_double_overload_cases dm T)
    as [(_ & -> & ->)|(_ & _ & -> & _)].
  - cbn in Hs. lia.
  - by apply leda_copy_template_small.
Qed.

Lemma leda_create_small_run dm T m :
  (sizeof dm T <= sizeof_GenPtr dm)%nat ->
  leda_create dm T m
  = Ret (to_bytes dm T (value_init dm T)
           ++ drop (length (to_bytes dm T (value_init dm T))) (null_GenPtr dm))
        (count_ctor m).
Proof.
  intros Hs. destruct (has_double_overload_cases dm T)
    as [(_ & -> & ->)|(_ & -> & _)].
  - cbn in Hs. lia.
  - by apply leda_create_template_small.
Qed.

Lemma leda_clear_small_run dm T r m :
  (sizeof dm T <= sizeof_GenPtr dm)%nat ->
  leda_clear dm T r m = Ret tt (count_dtor m).
Proof.
  intros Hs. destruct (has_double_overload_cases dm T)
    as [(_ & -> & ->)|(_ & _ & _ & -> & _)].
  - cbn in Hs. lia.
  - by apply leda_clear_template_small.
Qed.

(** A big copy: one fresh heap object holding the bytes of the value. *)
Lemma leda_copy_big_spec dm T (x : carrier T) m :
  type_ok T -> valid dm T x = true ->
  (sizeof_GenPtr dm < sizeof dm T)%nat ->
  has_room dm (sizeof dm T) m = true ->
  exists m',
    leda_copy dm T x m = Ret (ptr_bytes dm (brk m)) m' /\
    heap m' = <[brk m := {| blk_size := sizeof dm T;
                            blk_data := Init (to_bytes dm T x) |}]> (heap m) /\
    brk m' = brk m + Z.of_nat (Nat.max (sizeof dm T) 1) /\
    n_alloc m' = S (n_alloc m) /\ n_dealloc m' = n_dealloc m /\
    n_dtor m' = n_dtor m /\
    n_ctor m' = (if has_double_overload dm T then n_ctor m else S (n_ctor m)).
Proof.
  intros Hok Hv Hb Hroom.
  destruct (has_double_overload_cases dm T)
    as [(-> & -> & ->)|(-> & _ & -> & _)].
  - eexists. split; [by apply leda_copy_double_run|]. by repeat split.
  - eexists. split; [by apply leda_copy_template_big|]. by repeat split.
Qed.

(** Clearing a big slot whose object is live: the object is removed. *)
Lemma leda_clear_big_spec dm T a d m :
  (sizeof_GenPtr dm < sizeof dm T)%nat ->
  heap m !! a = Some {| blk_size := sizeof dm T; blk_data := d |} ->
  exists m',
    leda_clear dm T (at_addr a) m = Ret tt m' /\
    heap m' = delete a (heap m) /\ brk m' = brk m /\
    n_alloc m' = n_alloc m /\ n_dealloc m' = S (n_dealloc m) /\
    n_ctor m' = n_ctor m /\
    n_dtor m' = (if has_double_overload dm T then n_dtor m else S (n_dtor m)).
Proof.
  intros Hb Hlive.
  destruct (has_double_overload_cases dm T)
    as [(-> & -> & ->)|(-> & _ & _ & -> & _)].
  - cbn [leda_clear WORD_LENGTH_32]. unfold leda_clear_double, deallocate.
    rewrite Hlive. cbn. eexists. split; [done|]. by repeat split.
  - rewrite leda_clear_template_big by done.
    unfold operator_delete, deallocate. run. cbn.
    rewrite Hlive. cbn. rewrite Nat.eqb_refl.
    eexists. split; [done|]. by repeat split.
Qed.

(** Clearing a big slot whose object is not live. *)
Lemma leda_clear_big_dead dm T a m :
  (sizeof_GenPtr dm < sizeof dm T)%nat ->
  heap m !! a = None ->
  exists m', leda_clear dm T (at_addr a) m = Fail undefined_behaviour m'.
Proof.
  intros Hb Hdead.
  destruct (has_double_overload_cases dm T)
    as [(_ & -> & ->)|(_ & _ & _ & -> & _)].
  - cbn [leda_clear WORD_LENGTH_32]. unfold leda_clear_double, deallocate.
    rewrite Hdead. by eexists.
  - rewrite leda_clear_template_big by done.
    unfold operator_delete, deallocate. run. cbn.
    rewrite Hdead. by eexists.
Qed.

(** Whenever clearing a big slot returns, the object was live and is gone. *)
Lemma leda_clear_big_returns dm T a m m' :
  (sizeof_GenPtr dm < sizeof dm T)%nat ->
  leda_clear dm T (at_addr a) m = Ret tt m' ->
  heap m' = delete a (heap m).
Proof.
  intros Hb Hrun.
  destruct (heap m !! a) as [[n d]|] eqn:Hlive.
  - destruct (has_double_overload_cases dm T)
      as [(_ & -> & ->)|(_ & _ & _ & Hcl & _)].
    + revert Hrun. cbn [leda_clear WORD_LENGTH_32].
      unfold leda_clear_double, deallocate. rewrite Hlive. cbn.
      destruct (Nat.eqb n 8); [|done]. by intros [= <-].
    + revert Hrun. rewrite Hcl, leda_clear_template_big by done.
      unfold operator_delete, deallocate. run. cbn. rewrite Hlive. cbn.
      destruct (Nat.eqb n (sizeof dm T)); [|done]. by intros [= <-].
  - destruct (leda_clear_big_dead dm T a m Hb Hlive) as [m'' Hf]. congruence.
Qed.

Lemma read_at_live dm T (v : carrier T) m p a :
  type_ok T -> valid dm T v = true ->
  heap m !! a = Some {| blk_size := sizeof dm T; blk_data := Init (to_bytes dm T v) |} ->
  read dm T m p (at_addr a) = Some v.
Proof.
  intros Hok Hv Hlive. unfold read, load. rewrite Hlive, Nat.eqb_refl. cbn.
  by rewrite of_to_bytes.
Qed.

Lemma read_at_dead dm T m p a :
  heap m !! a = None -> read dm T m p (at_addr a) = None.
Proof. intros Hdead. unfold read, load. by rewrite Hdead. Qed.

Lemma read_same_object dm T m m' p a :
  heap m' !! a = heap m !! a ->
  read dm T m' p (at_addr a) = read dm T m p (at_addr a).
Proof. intros Heq. unfold read, load. by rewrite Heq. Qed.

Lemma read_in_slot_any dm T m m' p :
  read dm T m' p in_slot = read dm T m p in_slot.
Proof. reflexivity. Qed.

Lemma leda_create_big_spec dm T m :
  type_ok T ->
  (sizeof_GenPtr dm < sizeof dm T)%nat ->
  has_room dm (sizeof dm T) m = true ->
  exists m' d,
    leda_create dm T m = Ret (ptr_bytes dm (brk m)) m' /\
    heap m' = <[brk m := {| blk_size := sizeof dm T; blk_data := d |}]> (heap m) /\
    brk m' = brk m + Z.of_nat (Nat.max (sizeof dm T) 1) /\
    n_alloc m' = S (n_alloc m) /\ n_dealloc m' = n_dealloc m /\
    n_dtor m' = n_dtor m /\
    n_ctor m' = (if has_double_overload dm T then n_ctor m else S (n_ctor m)).
Proof.
  intros Hok Hb Hroom.
  destruct (has_double_overload_cases dm T)
    as [(-> & -> & ->)|(-> & -> & _)].
  - eexists _, _. split; [by apply leda_create_double_run|]. by repeat split.
  - eexists _, _. split; [by apply leda_create_template_big|]. by repeat split.
Qed.

Lemma brk_not_live m : heap_below_brk m -> heap m !! brk m = None.
Proof.
  intros Hwf. destruct (heap m !! brk m) as [b|] eqn:E; [|done].
  apply Hwf in E. lia.
Qed.

Lemma heap_below_brk_empty : heap_below_brk empty_machine.
Proof. intros a b. cbn. by rewrite lookup_empty. Qed.

(** Clearing the slot just made by a big create or copy. *)
Lemma clear_fresh_big dm T d m m' :
  heap_below_brk m ->
  (sizeof_GenPtr dm < sizeof dm T)%nat ->
  has_room dm (sizeof dm T) m = true ->
  heap m' = <[brk m := {| blk_size := sizeof dm T; blk_data := d |}]> (heap m) ->
  exists m'',
    LEDA_CLEAR dm T (ptr_bytes dm (brk m)) m' = Ret tt m'' /\
    heap m'' = heap m /\
    n_alloc m'' = n_alloc m' /\ n_dealloc m'' = S (n_dealloc m') /\
    n_ctor m'' = n_ctor m' /\
    n_dtor m'' = (if has_double_overload dm T then n_dtor m' else S (n_dtor m')).
Proof.
  intros Hwf Hb Hroom Hheap. unfold LEDA_CLEAR.
  rewrite leda_access_big by done.
  rewrite ptr_value_bytes by (apply (has_room_addr dm (sizeof dm T)); [lia|done]).
  destruct (leda_clear_big_spec dm T (brk m) d m' Hb) as (m'' & Hrun & Hh & _ & Hrest).
  { rewrite Hheap. apply lookup_insert_eq. }
  exists m''. split; [done|]. split; [|done].
  rewrite Hh, Hheap, delete_insert_eq. by apply delete_id, brk_not_live.
Qed.

(** ** Create or copy, then clear: nothing is left behind *)

(** X1. A slot made by [leda_create] or [leda_copy] and then cleared with
    [LEDA_CLEAR] leaves the heap exactly as it was before, with as many
    deallocations as allocations and as many destructor as constructor
    calls. *)
Theorem create_copy_clear_restores_heap dm T (x : carrier T) (m : machine) :
  type_ok T ->
  valid dm T x = true ->
  heap_below_brk m ->
  ((sizeof_GenPtr dm < sizeof dm T)%nat -> has_room dm (sizeof dm T) m = true) ->
  (exists p m' m'',
     leda_create dm T m = Ret p m' /\
     LEDA_CLEAR dm T p m' = Ret tt m'' /\
     heap m'' = heap m /\ same_lifetimes m m'' /\
     (n_alloc m'' + n_dealloc m = n_alloc m + n_dealloc m'')%nat) /\
  (exists p m' m'',
     leda_copy dm T x m = Ret p m' /\
     LEDA_CLEAR dm T p m' = Ret tt m'' /\
     heap m'' = heap m /\ same_lifetimes m m'' /\
     (n_alloc m'' + n_dealloc m = n_alloc m + n_dealloc m'')%nat).
Proof.
  intros Hok Hv Hwf Hroom. unfold same_lifetimes.
  destruct (le_lt_dec (sizeof dm T) (sizeof_GenPtr dm)) as [Hs|Hb].
  - split; eexists _, _, _.
    + split; [by apply leda_create_small_run|].
      split; [by apply leda_clear_small_run|]. cbn. repeat split; lia.
    + split; [by apply leda_copy_small_run|].
      split; [by apply leda_clear_small_run|]. cbn. repeat split; lia.
  - specialize (Hroom Hb). split.
    + destruct (leda_create_big_spec dm T m Hok Hb Hroom)
        as (m' & d & Hrun & Hh & _ & Ha & Hd & Hdt & Hct).
      destruct (clear_fresh_big dm T d m m' Hwf Hb Hroom Hh)
        as (m'' & Hcl & Hh' & Ha' & Hd' & Hct' & Hdt').
      exists (ptr_bytes dm (brk m)), m', m''. repeat split; try done.
      * rewrite Hct', Hdt', Hct, Hdt. destruct (has_double_overload dm T); lia.
      * lia.
    + destruct (leda_copy_big_spec dm T x m Hok Hv Hb Hroom)
        as (m' & Hrun & Hh & _ & Ha & Hd & Hdt & Hct).
      destruct (clear_fresh_big dm T _ m m' Hwf Hb Hroom Hh)
        as (m'' & Hcl & Hh' & Ha' & Hd' & Hct' & Hdt').
      exists (ptr_bytes dm (brk m)), m', m''. repeat split; try done.
      * rewrite Hct', Hdt', Hct, Hdt. destruct (has_double_overload dm T); lia.
      * lia.
Qed.

Lemma create_copy_clear_restores_heap_witness :
  exists p m' m'',
    leda_copy LP64 (Class (pod_struct 12)) (le_bytes 12 2026) empty_machine = Ret p m' /\
    LEDA_CLEAR LP64 (Class (pod_struct 12)) p m' = Ret tt m'' /\
    heap m'' = heap empty_machine /\ same_lifetimes empty_machine m'' /\
    (n_alloc m'' + n_dealloc empty_machine = n_alloc empty_machine + n_dealloc m'')%nat.
Proof.
  apply (proj2 (create_copy_clear_restores_heap LP64 (Class (pod_struct 12))
                  (le_bytes 12 2026) empty_machine (pod_struct_ok 12) eq_refl
                  heap_below_brk_empty (fun _ => eq_refl))).
Defined.

(** ** After a clear *)

(** X2. [leda_clear] gets a reference to the object, not to the slot: once
    [LEDA_CLEAR] of a big slot has returned, the slot still holds the old
    address, reading it gives no value, and clearing it again leaves defined
    behaviour. *)
Theorem LEDA_CLEAR_leaves_dangling dm T (p : GenPtr) (m m' : machine) :
  (sizeof_GenPtr dm < sizeof dm T)%nat ->
  LEDA_CLEAR dm T p m = Ret tt m' ->
  LEDA_ACCESS dm T m' p = None /\
  LEDA_CONST_ACCESS dm T m' p = None /\
  exists m'', LEDA_CLEAR dm T p m' = Fail undefined_behaviour m''.
Proof.
  unfold LEDA_CLEAR, LEDA_ACCESS, LEDA_CONST_ACCESS. intros Hb.
  assert (Hc : leda_const_access dm T p = leda_access dm T p).
  { destruct (has_double_overload_cases dm T)
      as [(_ & -> & ->)|(_ & _ & _ & _ & -> & -> & _)]; reflexivity. }
  rewrite Hc, leda_access_big by done. intros Hrun.
  assert (Hdead : heap m' !! ptr_value p = None).
  { rewrite (leda_clear_big_returns dm T _ m m' Hb Hrun). apply lookup_delete_eq. }
  split; [by apply read_at_dead|]. split; [by apply read_at_dead|].
  by apply leda_clear_big_dead.
Qed.

Lemma LEDA_CLEAR_leaves_dangling_witness :
  exists m',
    LEDA_CLEAR ILP32 (Scalar t_double) (ptr_bytes ILP32 16)
      (allocated 8 (Init (scalar_bytes ILP32 t_double 0)) empty_machine) = Ret tt m' /\
    LEDA_ACCESS ILP32 (Scalar t_double) m' (ptr_bytes ILP32 16) = None /\
    LEDA_CONST_ACCESS ILP32 (Scalar t_double) m' (ptr_bytes ILP32 16) = None /\
    exists m'',
      LEDA_CLEAR ILP32 (Scalar t_double) (ptr_bytes ILP32 16) m'
      = Fail undefined_behaviour m''.
Proof.
  eexists. split; [reflexivity|].
  apply (LEDA_CLEAR_leaves_dangling ILP32 (Scalar t_double) (ptr_bytes ILP32 16)
           (allocated 8 (Init (scalar_bytes ILP32 t_double 0)) empty_machine)).
  - cbn. lia.
  - reflexivity.
Defined.

(** ** LEDA_COPY: the copy is independent of the original *)

(** X3. [LEDA_COPY] of a slot that holds [v] gives a slot that reads [v] while
    the original still reads [v]; for a big [T] the two slots point to
    different objects; and clearing the copy leaves the original readable. *)
Theorem LEDA_COPY_independent dm T (v : carrier T) (p : GenPtr) (m : machine) :
  type_ok T ->
  valid dm T v = true ->
  heap_below_brk m ->
  ((sizeof_GenPtr dm < sizeof dm T)%nat -> has_room dm (sizeof dm T) m = true) ->
  LEDA_CONST_ACCESS dm T m p = Some v ->
  exists q m' m'',
    LEDA_COPY dm T p m = Ret q m' /\
    LEDA_ACCESS dm T m' q = Some v /\
    LEDA_ACCESS dm T m' p = Some v /\
    ((sizeof_GenPtr dm < sizeof dm T)%nat -> ptr_value q <> ptr_value p) /\
    LEDA_CLEAR dm T q m' = Ret tt m'' /\
    LEDA_ACCESS dm T m'' p = Some v.
Proof.
  intros Hok Hv Hwf Hroom Hread. unfold LEDA_COPY. rewrite Hread.
  assert (Hc : leda_const_access dm T p = leda_access dm T p).
  { destruct (has_double_overload_cases dm T)
      as [(_ & -> & ->)|(_ & _ & _ & _ & -> & -> & _)]; reflexivity. }
  unfold LEDA_CONST_ACCESS in Hread. rewrite Hc in Hread.
  unfold LEDA_ACCESS, LEDA_CLEAR.
  destruct (le_lt_dec (sizeof dm T) (sizeof_GenPtr dm)) as [Hs|Hb].
  - rewrite leda_access_small in Hread by done.
    eexists _, _, _. split; [by apply leda_copy_small_run|].
    rewrite !leda_access_small by done.
    rewrite (copy_init_equal dm T v Hok Hv).
    split; [by apply read_in_place|]. split; [exact Hread|].
    split; [lia|]. split; [by apply leda_clear_small_run|exact Hread].
  - specialize (Hroom Hb). rewrite leda_access_big in Hread by done.
    destruct (leda_copy_big_spec dm T v m Hok Hv Hb Hroom)
      as (m' & Hrun & Hh & _).
    destruct (clear_fresh_big dm T _ m m' Hwf Hb Hroom Hh)
      as (m'' & Hcl & Hh' & _).
    assert (Haddr : ptr_value (ptr_bytes dm (brk m)) = brk m)
      by (apply ptr_value_bytes, (has_room_addr dm (sizeof dm T)); [lia|done]).
    assert (Hne : brk m <> ptr_value p).
    { intros Heq. revert Hread. unfold read, load.
      by rewrite <- Heq, (brk_not_live m Hwf). }
    exists (ptr_bytes dm (brk m)), m', m''. split; [done|].
    rewrite !leda_access_big by done. rewrite Haddr.
    split; [apply read_at_live; [done..|rewrite Hh; apply lookup_insert_eq]|].
    split.
    { rewrite <- Hread. apply read_same_object.
      rewrite Hh. by apply lookup_insert_ne. }
    split; [done|].
    unfold LEDA_CLEAR in Hcl. rewrite leda_access_big, Haddr in Hcl by done.
    split; [exact Hcl|].
    rewrite <- Hread. apply read_same_object. by rewrite Hh'.
Qed.

Lemma LEDA_COPY_independent_witness :
  exists q m' m'',
    LEDA_COPY ILP32 (Scalar t_double) (ptr_bytes ILP32 16)
      (allocated 8 (Init (scalar_bytes ILP32 t_double 7)) empty_machine) = Ret q m' /\
    LEDA_ACCESS ILP32 (Scalar t_double) m' q = Some 7 /\
    LEDA_ACCESS ILP32 (Scalar t_double) m' (ptr_bytes ILP32 16) = Some 7 /\
    ((sizeof_GenPtr ILP32 < sizeof ILP32 (Scalar t_double))%nat ->
     ptr_value q <> ptr_value (ptr_bytes ILP32 16)) /\
    LEDA_CLEAR ILP32 (Scalar t_double) q m' = Ret tt m'' /\
    LEDA_ACCESS ILP32 (Scalar t_double) m'' (ptr_bytes ILP32 16) = Some 7.
Proof.
  apply (LEDA_COPY_independent ILP32 (Scalar t_double) 7 (ptr_bytes ILP32 16)
           (allocated 8 (Init (scalar_bytes ILP32 t_double 7)) empty_machine) I eq_refl).
  - intros a b. unfold allocated. cbn.
    destruct (decide (a = 16)) as [->|Hne].
    + intros _. lia.
    + rewrite lookup_insert_ne by done. by rewrite lookup_empty.
  - intros _. reflexivity.
  - reflexivity.
Defined.

(** ** The bytes of a slot *)

Lemma length_in_place dm T (v : carrier T) :
  type_ok T -> valid dm T v = true ->
  (sizeof dm T <= sizeof_GenPtr dm)%nat ->
  length (to_bytes dm T v ++ drop (length (to_bytes dm T v)) (null_GenPtr dm))
  = sizeof_GenPtr dm.
Proof.
  intros Hok Hv Hs.
  rewrite length_app, length_drop, length_null_GenPtr, (length_to_bytes dm T v Hok Hv).
  lia.
Qed.

Lemma take_in_place dm T (v : carrier T) :
  type_ok T -> valid dm T v = true ->
  take (sizeof dm T) (to_bytes dm T v ++ drop (length (to_bytes dm T v)) (null_GenPtr dm))
  = to_bytes dm T v.
Proof.
  intros Hok Hv. apply take_app_length'. symmetry. by apply length_to_bytes.
Qed.

Lemma leda_cast_small_run dm T (addr_x : Z) (x : carrier T) m :
  type_ok T -> valid dm T x = true ->
  (sizeof dm T <= sizeof_GenPtr dm)%nat ->
  exists m',
    leda_cast dm T addr_x x m
    = Ret (to_bytes dm T x ++ drop (length (to_bytes dm T x)) (null_GenPtr dm)) m' /\
    heap m' = heap m /\ brk m' = brk m /\
    n_alloc m' = n_alloc m /\ n_dealloc m' = n_dealloc m.
Proof.
  intros Hok Hv Hs.
  destruct (has_double_overload_cases dm T)
    as [(_ & -> & ->)|(_ & _ & Hcp & _ & _ & _ & ->)]; [cbn in Hs; lia|].
  unfold leda_cast_template.
  rewrite (proj2 (Nat.ltb_ge _ _)) by lia.
  destruct (Nat.eqb_spec (sizeof dm T) (sizeof_GenPtr dm)) as [He|Hne].
  - exists m. split; [|done]. run. do 2 f_equal.
    rewrite drop_ge by (rewrite length_null_GenPtr, length_to_bytes by done; lia).
    by rewrite app_nil_r.
  - rewrite (proj2 (Nat.ltb_lt _ _)) by lia.
    rewrite Hcp, leda_copy_template_small by done.
    rewrite (copy_init_equal dm T x Hok Hv). by eexists.
Qed.

Lemma leda_cast_big_run dm T (addr_x : Z) (x : carrier T) m :
  (sizeof_GenPtr dm < sizeof dm T)%nat ->
  leda_cast dm T addr_x x m = Ret (ptr_bytes dm addr_x) m.
Proof.
  intros Hb.
  destruct (has_double_overload_cases dm T)
    as [(_ & -> & ->)|(_ & _ & _ & _ & _ & _ & ->)]; [done|].
  unfold leda_cast_template. by rewrite (proj2 (Nat.ltb_lt _ _) Hb).
Qed.

(** X4. For a small [T], the slot of a copy is the bytes of the value followed
    by zero bytes, so two such slots are equal exactly when the values are;
    and [leda_cast] of a value gives the very bytes [leda_copy] gives. *)
Theorem small_slot_bytes dm T (addr_x : Z) (x y : carrier T) (m1 m2 m3 : machine)
    (p q c : GenPtr) (m1' m2' m3' : machine) :
  type_ok T ->
  valid dm T x = true -> valid dm T y = true ->
  (sizeof dm T <= sizeof_GenPtr dm)%nat ->
  leda_copy dm T x m1 = Ret p m1' ->
  leda_copy dm T y m2 = Ret q m2' ->
  leda_cast dm T addr_x x m3 = Ret c m3' ->
  p = to_bytes dm T x ++ zeros (sizeof_GenPtr dm - sizeof dm T) /\
  (p = q <-> x = y) /\
  c = p.
Proof.
  intros Hok Hx Hy Hs Hp Hq Hc.
  rewrite leda_copy_small_run in Hp, Hq by done.
  rewrite (copy_init_equal dm T x Hok Hx) in Hp.
  rewrite (copy_init_equal dm T y Hok Hy) in Hq.
  injection Hp as <- _. injection Hq as <- _.
  destruct (leda_cast_small_run dm T addr_x x m3 Hok Hx Hs) as (m' & Hrun & _).
  rewrite Hrun in Hc. injection Hc as <- _.
  split; [|split; [|done]].
  - f_equal. rewrite (length_to_bytes dm T x Hok Hx).
    unfold null_GenPtr, zeros. by rewrite drop_replicate.
  - split; [|by intros ->].
    intros Heq. apply (f_equal (take (sizeof dm T))) in Heq.
    rewrite !take_in_place in Heq by done.
    rewrite <- (of_to_bytes dm T x Hok Hx), <- (of_to_bytes dm T y Hok Hy).
    by rewrite Heq.
Qed.

Lemma small_slot_bytes_witness :
  ptr_bytes LP64 42 = to_bytes LP64 (Scalar t_int) 42 ++ zeros 4 /\
  (ptr_bytes LP64 42 = ptr_bytes LP64 43 <-> 42 = 43) /\
  ptr_bytes LP64 42 = ptr_bytes LP64 42.
Proof.
  apply (small_slot_bytes LP64 (Scalar t_int) 4096 42 43
           empty_machine empty_machine empty_machine
           (ptr_bytes LP64 42) (ptr_bytes LP64 43) (ptr_bytes LP64 42)
           (count_ctor empty_machine) (count_ctor empty_machine)
           (count_ctor empty_machine) I eq_refl eq_refl);
    [cbn; lia | reflexivity..].
Defined.

(** ** Reading through a cast *)

(** X5. [leda_cast] never touches the allocator, and [leda_access] on the slot it
    returns reads the value of [x]: from the slot for a small [T], and from
    [x] itself, through its address, for a big [T] (here an object of the
    heap). *)
Theorem leda_cast_reads_original dm T (addr_x : Z) (x : carrier T) (m : machine) :
  type_ok T ->
  valid dm T x = true ->
  ((sizeof_GenPtr dm < sizeof dm T)%nat ->
   0 <= addr_x < 256 ^ Z.of_nat (sizeof_GenPtr dm) /\
   heap m !! addr_x
   = Some {| blk_size := sizeof dm T; blk_data := Init (to_bytes dm T x) |}) ->
  exists p m',
    leda_cast dm T addr_x x m = Ret p m' /\
    LEDA_ACCESS dm T m' p = Some x /\
    heap m' = heap m /\ n_alloc m' = n_alloc m /\ n_dealloc m' = n_dealloc m /\
    ((sizeof_GenPtr dm < sizeof dm T)%nat -> ptr_value p = addr_x /\ m' = m).
Proof.
  intros Hok Hv Hlive. unfold LEDA_ACCESS.
  destruct (le_lt_dec (sizeof dm T) (sizeof_GenPtr dm)) as [Hs|Hb].
  - destruct (leda_cast_small_run dm T addr_x x m Hok Hv Hs)
      as (m' & Hrun & Hh & _ & Ha & Hd).
    eexists _, m'. split; [exact Hrun|].
    rewrite leda_access_small by done.
    split; [by apply read_in_place|]. repeat split; try done; lia.
  - destruct (Hlive Hb) as [Hrange Hobj].
    exists (ptr_bytes dm addr_x), m. split; [by apply leda_cast_big_run|].
    rewrite leda_access_big, ptr_value_bytes by done.
    split; [by apply read_at_live|].
    repeat split; try done; by apply ptr_value_bytes.
Qed.

Lemma leda_cast_reads_original_witness :
  exists p m',
    leda_cast ILP32 (Scalar t_double) 16 7
      (allocated 8 (Init (scalar_bytes ILP32 t_double 7)) empty_machine) = Ret p m' /\
    LEDA_ACCESS ILP32 (Scalar t_double) m' p = Some 7 /\
    heap m' = heap (allocated 8 (Init (scalar_bytes ILP32 t_double 7)) empty_machine) /\
    n_alloc m' = 1%nat /\ n_dealloc m' = 0%nat /\
    ((sizeof_GenPtr ILP32 < sizeof ILP32 (Scalar t_double))%nat ->
     ptr_value p = 16 /\
     m' = allocated 8 (Init (scalar_bytes ILP32 t_double 7)) empty_machine).
Proof.
  apply (leda_cast_reads_original ILP32 (Scalar t_double) 16 7
           (allocated 8 (Init (scalar_bytes ILP32 t_double 7)) empty_machine) I eq_refl).
  intros _. split; [cbn; lia|reflexivity].
Defined.

(** ** leda_create of a class type *)

(** X6. The small branch of [leda_create] value-initialises ([T()]) while the
    big branch default-initialises ([new T]): a created slot of a small class
    reads as [T()], that of a big class as whatever [new T] leaves, which for
    a class without a constructor of its own is no determinate value. *)
Theorem leda_create_class_reads dm (c : class_type) (m : machine) :
  class_ok c ->
  ((sizeof_GenPtr dm < obj_size c)%nat -> has_room dm (obj_size c) m = true) ->
  exists p m',
    leda_create dm (Class c) m = Ret p m' /\
    LEDA_ACCESS dm (Class c) m' p
    = (if (obj_size c <=? sizeof_GenPtr dm)%nat then Some (obj_ctor c) else obj_new c).
Proof.
  intros Hok Hroom. unfold LEDA_ACCESS.
  destruct (Nat.leb_spec (obj_size c) (sizeof_GenPtr dm)) as [Hs|Hb].
  - eexists _, _. split; [by apply (leda_create_small_run dm (Class c))|].
    rewrite leda_access_small by done.
    apply (read_in_place dm (Class c) (obj_ctor c)); [done| |done].
    apply (ctor_valid c Hok).
  - specialize (Hroom Hb).
    eexists _, _.
    split; [by apply (leda_create_template_big dm (Class c))|].
    rewrite (leda_access_big dm (Class c)) by done.
    rewrite ptr_value_bytes by (apply (has_room_addr dm (obj_size c)); [lia|done]).
    cbn [default_init]. destruct (obj_new c) as [v|] eqn:Hnew.
    + apply (read_at_live dm (Class c) v); [done|by apply (new_valid c Hok)|].
      cbn. apply lookup_insert_eq.
    + unfold read, load. cbn. by rewrite lookup_insert_eq.
Qed.

Lemma leda_create_class_reads_witness :
  (exists p m',
     leda_create LP64 (Class (pod_struct 12)) empty_machine = Ret p m' /\
     LEDA_ACCESS LP64 (Class (pod_struct 12)) m' p = None) /\
  (exists p m',
     leda_create LP64 (Class (pod_struct 8)) empty_machine = Ret p m' /\
     LEDA_ACCESS LP64 (Class (pod_struct 8)) m' p = Some (zeros 8)).
Proof.
  split.
  - apply (leda_create_class_reads LP64 (pod_struct 12) empty_machine (pod_struct_ok 12)).
    intros _. reflexivity.
  - apply (leda_create_class_reads LP64 (pod_struct 8) empty_machine (pod_struct_ok 8)).
    cbn. lia.
Defined.

(** ** Comparing through slots *)

Lemma has_room_twice dm n m :
  (0 < n)%nat ->
  has_room dm (2 * n) m = true ->
  has_room dm n m = true /\
  (forall m', brk m' = brk m + Z.of_nat (Nat.max n 1) -> has_room dm n m' = true).
Proof.
  unfold has_room. intros Hn H. apply andb_true_iff in H as [H1 H2].
  apply Z.ltb_lt in H1. apply Z.leb_le in H2.
  rewrite Nat2Z.inj_mul in H2.
  set (lim := 256 ^ Z.of_nat (sizeof_GenPtr dm)) in *.
  split.
  - apply andb_true_iff. split; [apply Z.ltb_lt|apply Z.leb_le]; lia.
  - intros m' ->. apply andb_true_iff. split; [apply Z.ltb_lt|apply Z.leb_le]; lia.
Qed.

(** X7. Two values copied into slots one after the other, then compared with
    [LEDA_COMPARE], compare as the values themselves do. *)
Theorem LEDA_COMPARE_of_copies dm T `{Less (carrier T)} (a b : carrier T) (m : machine) :
  type_ok T ->
  valid dm T a = true -> valid dm T b = true ->
  ((sizeof_GenPtr dm < sizeof dm T)%nat -> has_room dm (2 * sizeof dm T) m = true) ->
  exists p m1 q m2,
    leda_copy dm T a m = Ret p m1 /\
    leda_copy dm T b m1 = Ret q m2 /\
    LEDA_COMPARE dm T m2 p q = Some (compare a b).
Proof.
  intros Hok Ha Hb Hroom.
  assert (Hc : forall p, leda_const_access dm T p = leda_access dm T p).
  { intros p. destruct (has_double_overload_cases dm T)
      as [(_ & -> & ->)|(_ & _ & _ & _ & -> & -> & _)]; reflexivity. }
  unfold LEDA_COMPARE, LEDA_CALL2, LEDA_CONST_ACCESS.
  destruct (le_lt_dec (sizeof dm T) (sizeof_GenPtr dm)) as [Hs|Hbig].
  - eexists _, _, _, _.
    split; [by apply leda_copy_small_run|].
    split; [by apply leda_copy_small_run|].
    rewrite !Hc, !leda_access_small by done.
    rewrite (copy_init_equal dm T a Hok Ha), (copy_init_equal dm T b Hok Hb).
    by rewrite !read_in_place.
  - destruct (has_room_twice dm (sizeof dm T) m) as [Hr1 Hr2]; [lia|by apply Hroom|].
    destruct (leda_copy_big_spec dm T a m Hok Ha Hbig Hr1)
      as (m1 & Hrun1 & Hh1 & Hbrk1 & _).
    destruct (leda_copy_big_spec dm T b m1 Hok Hb Hbig (Hr2 m1 Hbrk1))
      as (m2 & Hrun2 & Hh2 & _).
    assert (Ha1 : ptr_value (ptr_bytes dm (brk m)) = brk m)
      by (apply ptr_value_bytes, (has_room_addr dm (sizeof dm T)); [lia|done]).
    assert (Ha2 : ptr_value (ptr_bytes dm (brk m1)) = brk m1)
      by (apply ptr_value_bytes, (has_room_addr dm (sizeof dm T)); [lia|by apply Hr2]).
    exists (ptr_bytes dm (brk m)), m1, (ptr_bytes dm (brk m1)), m2.
    split; [done|]. split; [done|].
    rewrite !Hc, !leda_access_big, Ha1, Ha2 by done.
    rewrite (read_at_live dm T a m2 (ptr_bytes dm (brk m)) (brk m)); [|done|done|].
    + rewrite (read_at_live dm T b m2 (ptr_bytes dm (brk m1)) (brk m1));
        [reflexivity|done|done|].
      rewrite Hh2. apply lookup_insert_eq.
    + rewrite Hh2, lookup_insert_ne by lia. rewrite Hh1. apply lookup_insert_eq.
Qed.

Lemma LEDA_COMPARE_of_copies_witness :
  exists p m1 q m2,
    leda_copy ILP32 (Scalar t_double) 3 empty_machine = Ret p m1 /\
    leda_copy ILP32 (Scalar t_double) 5 m1 = Ret q m2 /\
    LEDA_COMPARE ILP32 (Scalar t_double) m2 p q = Some (compare 3 5).
Proof.
  apply (LEDA_COMPARE_of_copies ILP32 (Scalar t_double) 3 5 empty_machine I eq_refl eq_refl).
  intros _. reflexivity.
Defined.

(** ** The ordering predicates built from compare *)

Lemma compare_negative_iff_less {T} `{Less T} (x y : T) :
  (compare x y <? 0) = less x y.
Proof. unfold compare. destruct (less x y); [done|]. by destruct (less y x). Qed.

(** X8. Whatever the relation [<] is, the three predicates built from [compare]
    (the default one, the one over a function pointer, the one over a
    [leda_cmp_base] object) all answer [x < y], as the plain predicate the
    header keeps in a comment would. *)
Theorem smaller_from_compare_is_less {S T} `{Less T} (x y : T) (s : S) (dyn : bool) :
  smaller_default_call Build_smaller_default x y = less x y /\
  smaller_cmp_func_call (Build_smaller_cmp_func (Some compare)) x y s
  = Ret (less x y) s /\
  smaller_cmp_obj_call
    (Build_smaller_cmp_obj (leda_cmp_base_ctor (Some compare) dyn)) x y s
  = Ret (less x y) s.
Proof.
  split; [apply compare_negative_iff_less|].
  split.
  - unfold smaller_cmp_func_call. run. cbn. by rewrite compare_negative_iff_less.
  - unfold smaller_cmp_obj_call, cmp_call, leda_cmp_base_comparator,
      leda_cmp_base_call. run. cbn. by rewrite compare_negative_iff_less.
Qed.

(** ** compare over a strict weak order *)

Lemma compare_zero_iff {T} `{Less T} (x y : T) :
  compare x y = 0 <-> less x y = false /\ less y x = false.
Proof.
  unfold compare. destruct (less x y), (less y x); split; try done; by intros [? ?].
Qed.

Lemma swo_less_equivalent {T} (lt : T -> T -> bool) :
  strict_weak_order lt ->
  forall x y z, lt x y = false -> lt y x = false ->
    lt x z = lt y z /\ lt z x = lt z y.
Proof.
  intros Hswo x y z Hxy Hyx.
  assert (Hl : forall u v, lt u v = false -> lt v u = false ->
                 lt u z = true -> lt v z = true).
  { intros u v Huv Hvu Huz. destruct (lt v z) eqn:Hvz; [done|].
    destruct (lt z v) eqn:Hzv.
    - by rewrite (swo_trans lt Hswo u z v Huz Hzv) in Huv.
    - destruct (swo_incomparable lt Hswo u v z Huv Hvu Hvz Hzv) as [Hc _].
      by rewrite Hc in Huz. }
  assert (Hr : forall u v, lt u v = false -> lt v u = false ->
                 lt z u = true -> lt z v = true).
  { intros u v Huv Hvu Hzu. destruct (lt z v) eqn:Hzv; [done|].
    destruct (lt v z) eqn:Hvz.
    - by rewrite (swo_trans lt Hswo v z u Hvz Hzu) in Hvu.
    - destruct (swo_incomparable lt Hswo u v z Huv Hvu Hvz Hzv) as [_ Hc].
      by rewrite Hc in Hzu. }
  split.
  - destruct (lt x z) eqn:Hxz.
    + symmetry. by apply (Hl x y).
    + destruct (lt y z) eqn:Hyz; [|done].
      by rewrite (Hl y x Hyx Hxy Hyz) in Hxz.
  - destruct (lt z x) eqn:Hzx.
    + symmetry. by apply (Hr x y).
    + destruct (lt z y) eqn:Hzy; [|done].
      by rewrite (Hr y x Hyx Hxy Hzy) in Hzx.
Qed.

(** X9. When [<] is a strict weak order, [compare] is a consistent three-way
    order: values that compare equal compare alike with every third value,
    comparing equal is transitive, and so is comparing smaller. *)
Theorem compare_consistent {T} `{Less T} (x y z : T) :
  strict_weak_order (less (T:=T)) ->
  (compare x y = 0 -> compare x z = compare y z /\ compare z x = compare z y) /\
  (compare x y = 0 -> compare y z = 0 -> compare x z = 0) /\
  (compare x y = -1 -> compare y z = -1 -> compare x z = -1).
Proof.
  intros Hswo.
  assert (Heq : compare x y = 0 ->
                compare x z = compare y z /\ compare z x = compare z y).
  { intros H0. apply compare_zero_iff in H0 as [Hxy Hyx].
    destruct (swo_less_equivalent _ Hswo x y z Hxy Hyx) as [H1 H2].
    unfold compare. by rewrite H1, H2. }
  split; [exact Heq|]. split.
  - intros Hxy Hyz. destruct (Heq Hxy) as [-> _]. exact Hyz.
  - unfold compare. intros Hxy Hyz.
    destruct (less x y) eqn:Lxy; [|by destruct (less y x)].
    destruct (less y z) eqn:Lyz; [|by destruct (less z y)].
    by rewrite (swo_trans _ Hswo x y z Lxy Lyz).
Qed.

Lemma less_by_tens_strict_weak_order : strict_weak_order less_by_tens.
Proof.
  unfold less_by_tens. split.
  - intros x. apply Z.ltb_irrefl.
  - intros x y z. generalize (x / 10), (y / 10), (z / 10). intros; lia.
  - intros x y z. generalize (x / 10), (y / 10), (z / 10). intros; lia.
Qed.

Lemma compare_consistent_witness :
  (compare (H:=less_by_tens) 41 90 = compare (H:=less_by_tens) 47 90 /\
   compare (H:=less_by_tens) 90 41 = compare (H:=less_by_tens) 90 47) /\
  compare (H:=less_by_tens) 41 49 = 0 /\
  compare (H:=less_by_tens) 11 90 = -1.
Proof.
  split; [|split].
  - apply (proj1 (compare_consistent (H:=less_by_tens) 41 47 90
                    less_by_tens_strict_weak_order)).
    reflexivity.
  - apply (proj1 (proj2 (compare_consistent (H:=less_by_tens) 41 47 49
                           less_by_tens_strict_weak_order))); reflexivity.
  - apply (proj2 (proj2 (compare_consistent (H:=less_by_tens) 11 47 90
                           less_by_tens_strict_weak_order))); reflexivity.
Defined.

(** ** Type ids *)

(** X10. A known type id fixes the layout: two scalar types with the same id
    other than [UNKNOWN_TYPE_ID] have the same size and signedness and the
    same object representation; this covers [long], which gets the id of
    [int] exactly on the builds where it has the size of [int]. *)
Theorem leda_type_id_fixes_layout dm (k1 k2 : scalar) :
  leda_type_id dm (Scalar k1) = leda_type_id dm (Scalar k2) ->
  leda_type_id dm (Scalar k1) <> UNKNOWN_TYPE_ID ->
  scalar_size dm k1 = scalar_size dm k2 /\
  scalar_signed k1 = scalar_signed k2 /\
  (forall v, scalar_bytes dm k1 v = scalar_bytes dm k2 v) /\
  (forall bs, scalar_value dm k1 bs = scalar_value dm k2 bs) /\
  (leda_type_id dm (Scalar t_long) = INT_TYPE_ID
   <-> scalar_size dm t_long = scalar_size dm t_int).
Proof.
  intros Heq Hknown.
  destruct dm, k1, k2; cbn in Heq, Hknown; try discriminate Heq; try done;
    repeat split; try done; cbn; try discriminate.
Qed.

Lemma leda_type_id_fixes_layout_witness :
  scalar_size ILP32 t_long = scalar_size ILP32 t_int /\
  scalar_signed t_long = scalar_signed t_int /\
  (forall v, scalar_bytes ILP32 t_long v = scalar_bytes ILP32 t_int v) /\
  (forall bs, scalar_value ILP32 t_long bs = scalar_value ILP32 t_int bs) /\
  (leda_type_id ILP32 (Scalar t_long) = INT_TYPE_ID
   <-> scalar_size ILP32 t_long = scalar_size ILP32 t_int).
Proof.
  apply (leda_type_id_fixes_layout ILP32 t_long t_int); [reflexivity|discriminate].
Defined.

(** ** Id numbers *)

Lemma mod_eq_close (M x y : Z) :
  0 < M -> Z.abs (x - y) < M -> x mod M = y mod M -> x = y.
Proof.
  intros HM Hclose Hmod.
  pose proof (Z.div_mod x M ltac:(lia)) as Hx.
  pose proof (Z.div_mod y M ltac:(lia)) as Hy.
  rewrite Hmod in Hx.
  assert (Hk : x - y = M * (x / M - y / M)) by lia.
  assert (x / M - y / M = 0) by nia.
  lia.
Qed.

Lemma scalar_valid_close dm k x y :
  scalar_valid dm k x = true -> scalar_valid dm k y = true ->
  Z.abs (x - y) < 2 ^ scalar_bits dm k.
Proof.
  intros Hx Hy.
  apply scalar_valid_range in Hx. apply scalar_valid_range in Hy.
  pose proof (scalar_bits_pos dm k) as Hb.
  assert (E : 2 ^ scalar_bits dm k = 2 * 2 ^ (scalar_bits dm k - 1)).
  { rewrite <- Z.pow_succ_r by lia. f_equal. lia. }
  destruct (scalar_signed k); lia.
Qed.

Lemma ID_Number_bits_pos dm : 0 < 2 ^ ID_Number_bits dm.
Proof. apply Z.pow_pos_nonneg; [lia|]. destruct dm; vm_compute; discriminate. Qed.

(** X11. The id number of a scalar lies in the range of the unsigned result
    type, is the value itself when that is not negative, and tells the
    values of the type apart. *)
Theorem ID_Number_injective dm (k : scalar) (f : Z -> Z) (x y : Z) :
  ID_Number dm k = Some f ->
  scalar_valid dm k x = true ->
  scalar_valid dm k y = true ->
  0 <= f x < 2 ^ ID_Number_bits dm /\
  (0 <= x -> f x = x) /\
  (f x = f y -> x = y).
Proof.
  intros Hf Hx Hy.
  assert (Hw : scalar_bits dm k <= ID_Number_bits dm).
  { destruct dm, k; try discriminate Hf; vm_compute; discriminate. }
  assert (Hfm : f = fun v => v mod 2 ^ ID_Number_bits dm).
  { destruct k; cbn in Hf; try discriminate Hf; by injection Hf as <-. }
  subst f. cbn beta.
  pose proof (ID_Number_bits_pos dm) as HM.
  pose proof (scalar_bits_pos dm k) as Hb.
  assert (Hle : 2 ^ scalar_bits dm k <= 2 ^ ID_Number_bits dm)
    by (apply Z.pow_le_mono_r; lia).
  split; [by apply Z.mod_pos_bound|]. split.
  - intros Hpos. apply Z.mod_small.
    pose proof (scalar_valid_range dm k x Hx) as Hr.
    assert (2 ^ (scalar_bits dm k - 1) <= 2 ^ scalar_bits dm k)
      by (apply Z.pow_le_mono_r; lia).
    destruct (scalar_signed k); lia.
  - apply mod_eq_close; [done|].
    pose proof (scalar_valid_close dm k x y Hx Hy). lia.
Qed.

Lemma ID_Number_injective_witness :
  0 <= ID_Number_int LP64 (-1) < 2 ^ ID_Number_bits LP64 /\
  (0 <= -1 -> ID_Number_int LP64 (-1) = -1) /\
  (ID_Number_int LP64 (-1) = ID_Number_int LP64 7 -> -1 = 7).
Proof.
  apply (ID_Number_injective LP64 t_int (ID_Number_int LP64) (-1) 7);
    reflexivity.
Defined.

Lemma ID_Number_size_GenPtr dm : ID_Number_size dm = sizeof_GenPtr dm.
Proof. by destruct dm. Qed.

Lemma ID_Number_ptr_address_aux dm (c : Z) :
  0 <= c < 256 ^ Z.of_nat (sizeof_GenPtr dm) ->
  ID_Number_ptr dm (ptr_bytes dm c) = c /\ length (ptr_bytes dm c) = sizeof_GenPtr dm.
Proof.
  intros Hc. split; [|apply length_le_bytes].
  unfold ID_Number_ptr, ptr_bytes. rewrite ID_Number_size_GenPtr.
  rewrite take_ge by (rewrite length_le_bytes; lia).
  by apply le_roundtrip.
Qed.

(** X12. The id number of a pointer is its address: it is read back unchanged
    from the union, so distinct pointers get distinct id numbers. *)
Theorem ID_Number_ptr_address dm (a b : Z) :
  0 <= a < 256 ^ Z.of_nat (sizeof_GenPtr dm) ->
  0 <= b < 256 ^ Z.of_nat (sizeof_GenPtr dm) ->
  ID_Number_ptr dm (ptr_bytes dm a) = a /\
  (ID_Number_ptr dm (ptr_bytes dm a) = ID_Number_ptr dm (ptr_bytes dm b) -> a = b).
Proof.
  intros Ha Hb.
  assert (Hid : forall c, 0 <= c < 256 ^ Z.of_nat (sizeof_GenPtr dm) ->
                  ID_Number_ptr dm (ptr_bytes dm c) = c).
  { intros c Hc. unfold ID_Number_ptr, ptr_bytes.
    rewrite ID_Number_size_GenPtr.
    rewrite take_ge by (rewrite length_le_bytes; lia).
    by apply le_roundtrip. }
  split; [by apply Hid|]. rewrite !Hid by done. done.
Qed.

Lemma ID_Number_ptr_address_witness :
  ID_Number_ptr ILP32 (ptr_bytes ILP32 4096) = 4096 /\
  (ID_Number_ptr ILP32 (ptr_bytes ILP32 4096) = ID_Number_ptr ILP32 (ptr_bytes ILP32 4100)
   -> 4096 = 4100).
Proof.
  apply (ID_Number_ptr_address ILP32 4096 4100); cbn; lia.
Defined.

(** ** Hash functions *)

Lemma int_bits dm : scalar_bits dm t_int = 32.
Proof. reflexivity. Qed.

Lemma to_int_valid dm x : scalar_valid dm t_int x = true -> to_int dm x = x.
Proof.
  intros Hv. unfold to_int. apply of_pattern_mod; [by rewrite int_bits|].
  by apply (scalar_valid_range dm t_int).
Qed.

Lemma to_int_periodic dm x j : to_int dm (x + j * 2 ^ 32) = to_int dm x.
Proof. unfold to_int. rewrite int_bits. by rewrite Z.mod_add. Qed.

Lemma to_int_injective dm x y :
  Z.abs (x - y) < 2 ^ 32 -> to_int dm x = to_int dm y -> x = y.
Proof.
  unfold to_int, of_pattern. rewrite int_bits. cbn [andb].
  intros Hclose Heq. apply (mod_eq_close (2 ^ 32)); [lia|done|].
  pose proof (Z.mod_pos_bound x (2 ^ 32) ltac:(lia)).
  pose proof (Z.mod_pos_bound y (2 ^ 32) ltac:(lia)).
  destruct (Z.leb_spec (2 ^ (32 - 1)) (x mod 2 ^ 32)),
           (Z.leb_spec (2 ^ (32 - 1)) (y mod 2 ^ 32)); lia.
Qed.

(** X13. [Hash] of an integer scalar is the value converted to [int]: it returns
    every value in the range of [int] unchanged, it tells apart the values
    of a type no wider than [int], and it cannot tell apart two values that
    differ by a multiple of [2^32], as values of a 64-bit [long] can. *)
Theorem Hash_integer dm (k : scalar) (x y j : Z) :
  k <> t_float -> k <> t_double ->
  (scalar_valid dm t_int x = true -> Hash dm k x = Some x) /\
  (scalar_bits dm k <= 32 ->
   scalar_valid dm k x = true -> scalar_valid dm k y = true ->
   Hash dm k x = Hash dm k y -> x = y) /\
  Hash dm k (x + j * 2 ^ 32) = Hash dm k x.
Proof.
  intros Hf Hd.
  assert (Hh : forall v, Hash dm k v = Some (to_int dm v)) by (by destruct k).
  rewrite !Hh. split; [|split].
  - intros Hv. by rewrite to_int_valid.
  - intros Hw Hx Hy [= Heq]. apply (to_int_injective dm); [|done].
    pose proof (scalar_valid_close dm k x y Hx Hy).
    assert (2 ^ scalar_bits dm k <= 2 ^ 32) by (apply Z.pow_le_mono_r; lia).
    lia.
  - by rewrite to_int_periodic.
Qed.

Lemma Hash_integer_witness :
  Hash LP64 t_long (-5) = Some (-5) /\
  (Hash LP64 t_ushort 65535 = Hash LP64 t_ushort 4 -> 65535 = 4) /\
  Hash LP64 t_long (7 + 3 * 2 ^ 32) = Hash LP64 t_long 7.
Proof.
  split; [|split].
  - apply (proj1 (Hash_integer LP64 t_long (-5) 0 0 ltac:(discriminate)
                    ltac:(discriminate))).
    reflexivity.
  - apply (proj1 (proj2 (Hash_integer LP64 t_ushort 65535 4 0 ltac:(discriminate)
                           ltac:(discriminate))));
      [vm_compute; discriminate|reflexivity..].
  - apply (proj2 (proj2 (Hash_integer LP64 t_long 7 0 3 ltac:(discriminate)
                           ltac:(discriminate)))).
Defined.

Lemma take_le_bytes n w z : (n <= w)%nat -> take n (le_bytes w z) = le_bytes n z.
Proof.
  revert w z. induction n as [|n IH]; intros w z Hn; [done|].
  destruct w as [|w]; [lia|]. cbn. f_equal. apply IH. lia.
Qed.

(** X14. [Hash] of a pointer is its id number converted to [int], the formula the
    header keeps in a comment: the low 32 bits of the address.  Two pointers
    of a 64-bit build whose addresses differ by [2^32] hash alike. *)
Theorem Hash_ptr_low_bits dm (a : Z) :
  0 <= a < 256 ^ Z.of_nat (sizeof_GenPtr dm) ->
  Hash_ptr dm (ptr_bytes dm a) = to_int dm (ID_Number_ptr dm (ptr_bytes dm a)) /\
  Hash_ptr dm (ptr_bytes dm a) = to_int dm a /\
  (a + 2 ^ 32 < 256 ^ Z.of_nat (sizeof_GenPtr dm) ->
   Hash_ptr dm (ptr_bytes dm (a + 2 ^ 32)) = Hash_ptr dm (ptr_bytes dm a)).
Proof.
  intros Ha.
  assert (Hlow : forall c, Hash_ptr dm (ptr_bytes dm c) = to_int dm c).
  { intros c. unfold Hash_ptr, scalar_value, ptr_bytes, to_int.
    change (scalar_size dm t_int) with 4%nat.
    rewrite take_le_bytes by (destruct dm; cbn; lia).
    by rewrite le_value_bytes, pow_256. }
  split; [|split].
  - rewrite Hlow. f_equal. symmetry.
    by apply (proj1 (ID_Number_ptr_address_aux dm a Ha)).
  - apply Hlow.
  - intros _. rewrite !Hlow.
    replace (a + 2 ^ 32) with (a + 1 * 2 ^ 32) by lia. apply to_int_periodic.
Qed.

Lemma Hash_ptr_low_bits_witness :
  Hash_ptr LP64 (ptr_bytes LP64 4096)
  = to_int LP64 (ID_Number_ptr LP64 (ptr_bytes LP64 4096)) /\
  Hash_ptr LP64 (ptr_bytes LP64 4096) = to_int LP64 4096 /\
  (4096 + 2 ^ 32 < 256 ^ Z.of_nat (sizeof_GenPtr LP64) ->
   Hash_ptr LP64 (ptr_bytes LP64 (4096 + 2 ^ 32)) = Hash_ptr LP64 (ptr_bytes LP64 4096)).
Proof.
  apply (Hash_ptr_low_bits LP64 4096). vm_compute. split; [discriminate|reflexivity].
Defined.

(** ** Hash of a floating value *)

Lemma ieee_trunc_of_Z (mbits ebits n : Z) :
  0 < mbits -> 1 < ebits -> mbits < 2 ^ (ebits - 1) ->
  Z.abs n < 2 ^ (mbits + 1) ->
  ieee_trunc mbits ebits (ieee_of_Z mbits ebits n) = Some n.
Proof.
  intros Hm He Hfit Hn.
  assert (HQ : 2 ^ ebits = 2 * 2 ^ (ebits - 1)).
  { rewrite <- Z.pow_succ_r by lia. f_equal. lia. }
  assert (HQ1 : 2 <= 2 ^ (ebits - 1)).
  { change 2 with (2 ^ 1) at 1. apply Z.pow_le_mono_r; lia. }
  assert (HP : 0 < 2 ^ mbits) by (apply Z.pow_pos_nonneg; lia).
  unfold ieee_of_Z. destruct (Z.eqb_spec n 0) as [->|Hn0].
  - unfold ieee_trunc. rewrite !Z.div_0_l, !Z.mod_0_l by (apply Z.pow_nonzero; lia).
    rewrite Z.mod_0_l by lia.
    destruct (Z.eqb_spec 0 (2 ^ ebits - 1)); [lia|]. reflexivity.
  - set (m := Z.abs n). set (e := Z.log2 m).
    assert (Hmpos : 0 < m) by (unfold m; lia).
    destruct (Z.log2_spec m Hmpos) as [Hlo Hhi]. fold e in Hlo, Hhi.
    assert (He0 : 0 <= e) by apply Z.log2_nonneg.
    assert (Hele : e <= mbits).
    { destruct (Z_le_gt_dec e mbits) as [|Hgt]; [done|].
      assert (2 ^ (mbits + 1) <= 2 ^ e) by (apply Z.pow_le_mono_r; lia).
      unfold m in *. lia. }
    rewrite (proj2 (Z.leb_le e mbits) Hele).
    set (s := if n <? 0 then 1 else 0).
    set (P := 2 ^ mbits) in *. set (Q := 2 ^ ebits) in *.
    set (bias := 2 ^ (ebits - 1) - 1).
    set (sig := m * 2 ^ (mbits - e)).
    assert (Hsplit : 2 ^ e * 2 ^ (mbits - e) = P).
    { unfold P. rewrite <- Z.pow_add_r by lia. f_equal. lia. }
    assert (Hpow : 0 < 2 ^ (mbits - e)) by (apply Z.pow_pos_nonneg; lia).
    assert (Hsig : P <= sig < 2 * P).
    { unfold sig. rewrite Z.pow_succ_r in Hhi by lia. nia. }
    assert (HPQ : 2 ^ (mbits + ebits) = P * Q).
    { unfold P, Q. apply Z.pow_add_r; lia. }
    rewrite HPQ.
    set (f := sig - P). set (E := e + bias).
    assert (Hf : 0 <= f < P) by (unfold f; lia).
    assert (HE : 1 <= E < Q - 1) by (unfold E, bias, Q; lia).
    assert (Hs : 0 <= s <= 1) by (unfold s; destruct (n <? 0); lia).
    assert (Hbits : s * (P * Q) + E * P + f = (s * Q + E) * P + f) by ring.
    unfold ieee_trunc. fold P Q bias.
    rewrite HPQ, Hbits.
    assert (Hfrac : ((s * Q + E) * P + f) mod P = f).
    { rewrite Z.add_comm, Z.mod_add by lia. apply Z.mod_small. lia. }
    assert (Hdiv : ((s * Q + E) * P + f) / P = s * Q + E).
    { rewrite Z.add_comm, Z.div_add by lia. rewrite Z.div_small by lia. lia. }
    assert (HEmod : (s * Q + E) mod Q = E).
    { rewrite Z.add_comm, Z.mod_add by lia. apply Z.mod_small. lia. }
    assert (Hsign : ((s * Q + E) * P + f) / (P * Q) mod 2 = s).
    { rewrite <- Z.div_div by lia. rewrite Hdiv.
      rewrite Z.add_comm, Z.div_add by lia. rewrite (Z.div_small E Q) by lia.
      apply Z.mod_small. lia. }
    rewrite Hfrac, Hdiv, HEmod, Hsign.
    destruct (Z.eqb_spec E (Q - 1)); [lia|].
    destruct (Z.eqb_spec E 0); [lia|].
    replace (P + f) with sig by (unfold f; lia).
    replace (E - bias - mbits) with (e - mbits) by (unfold E; lia).
    assert (Hmag : (if 0 <=? e - mbits then sig * 2 ^ (e - mbits)
                    else sig / 2 ^ (- (e - mbits))) = m).
    { destruct (Z.leb_spec 0 (e - mbits)).
      - replace (e - mbits) with 0 by lia. unfold sig.
        replace (mbits - e) with 0 by lia. cbn. lia.
      - replace (- (e - mbits)) with (mbits - e) by lia.
        unfold sig. apply Z.div_mul. lia. }
    rewrite Hmag. f_equal. unfold s, m.
    destruct (Z.ltb_spec n 0); cbn; lia.
Qed.

(** X15. An [int] converted to [double] hashes back to itself, and so does an
    [int] of magnitude below [2^24] converted to [float]: the conversion is
    exact there and [Hash] takes the integer part. *)
Theorem Hash_of_converted_int dm (n : Z) :
  scalar_valid dm t_int n = true ->
  Hash dm t_double (scalar_of_int dm t_double n) = Some n /\
  (Z.abs n < 2 ^ 24 -> Hash dm t_float (scalar_of_int dm t_float n) = Some n).
Proof.
  intros Hv.
  pose proof (scalar_valid_range dm t_int n Hv) as Hr. cbn [scalar_signed] in Hr.
  rewrite int_bits in Hr.
  cbn [Hash scalar_of_int]. unfold Hash_double, Hash_float, float_to_int. split.
  - rewrite ieee_trunc_of_Z;
      [cbn [mbind option_bind]; by rewrite Hv|lia|lia|vm_compute; reflexivity|].
    assert (2 ^ (32 - 1) < 2 ^ (52 + 1)) by (vm_compute; reflexivity). lia.
  - intros Hsmall.
    rewrite ieee_trunc_of_Z;
      [cbn [mbind option_bind]; by rewrite Hv|lia|lia|vm_compute; reflexivity|].
    exact Hsmall.
Qed.

Lemma Hash_of_converted_int_witness :
  Hash LP64 t_double (scalar_of_int LP64 t_double (-2147483648)) = Some (-2147483648) /\
  Hash LP64 t_float (scalar_of_int LP64 t_float 16777215) = Some 16777215.
Proof.
  split.
  - apply (proj1 (Hash_of_converted_int LP64 (-2147483648) eq_refl)).
  - apply (proj2 (Hash_of_converted_int LP64 16777215 eq_refl)).
    vm_compute. reflexivity.
Defined.
